(** * OSC 66 text sizing sequences of opentui: [ansi.ts] and [zig/ansi.zig]

    The development embeds the text sizing encoders of
    [packages/core/src/ansi.ts] (module [Ts]) and of
    [packages/core/src/zig/ansi.zig] (module [Zig]) and states the
    properties of the wire format over them. *)

From Stdlib Require Import ZArith List Bool Lia Ascii String.
From Stdlib Require Import Decimal DecimalString DecimalPos DecimalZ.
From Stdlib Require HexadecimalString HexadecimalZ.
Import ListNotations.

Open Scope string_scope.
Open Scope Z_scope.

(** ** Bytes and decimal rendering shared by both sources *)

(** The escape character, written [\x1b] in both sources. *)
Definition ESC : string := String "027"%char EmptyString.

(** Decimal rendering of an integer: what a template literal [${n}] yields
    for an integer valued JavaScript number (below 1e21 in magnitude) and
    what [{d}] yields in [std.fmt.format]. *)
Definition decimal (z : Z) : string := NilZero.string_of_int (Z.to_int z).

(** [String.prototype.includes]: [pat] occurs somewhere in [s]. *)
Fixpoint includes (s pat : string) : bool :=
  String.prefix pat s ||
  match s with
  | EmptyString => false
  | String _ s' => includes s' pat
  end.

(** The characters of a string, in order. *)
Definition chars (s : string) : list ascii := list_ascii_of_string s.

(** ** packages/core/src/ansi.ts *)

Module Ts.

(** [type VerticalAlign = "top" | "bottom" | "center"] *)
Inductive VerticalAlign : Type := Vtop | Vbottom | Vcenter.

(** [type HorizontalAlign = "left" | "right" | "center"] *)
Inductive HorizontalAlign : Type := Hleft | Hright | Hcenter.

(** [interface TextSizingParams]: every field is optional; [None] is
    JavaScript's [undefined]. *)
Record TextSizingParams : Type := mkParams {
  scale : option Z;
  width : option Z;
  numerator : option Z;
  denominator : option Z;
  verticalAlign : option VerticalAlign;
  horizontalAlign : option HorizontalAlign
}.

(** Truthiness of a [number | undefined]: [undefined] and [0] are falsy. *)
Definition truthy (x : option Z) : bool :=
  match x with
  | Some z => negb (z =? 0)
  | None => false
  end.

(** [x > y] on [number | undefined]: [undefined] converts to NaN and every
    comparison with NaN is false. *)
Definition gt (x y : option Z) : bool :=
  match x, y with
  | Some a, Some b => b <? a
  | _, _ => false
  end.

(** [`${x}`] for a [number | undefined]. *)
Definition template (x : option Z) : string :=
  match x with
  | Some z => decimal z
  | None => "undefined"
  end.

(** Truthiness of an alignment: the three literals are non-empty strings,
    hence truthy; [undefined] is falsy. *)
Definition present {A : Type} (x : option A) : bool :=
  match x with
  | Some _ => true
  | None => false
  end.

(** [===] on [VerticalAlign | undefined]. *)
Definition vertical_eq (x y : option VerticalAlign) : bool :=
  match x, y with
  | Some Vtop, Some Vtop | Some Vbottom, Some Vbottom
  | Some Vcenter, Some Vcenter | None, None => true
  | _, _ => false
  end.

(** [===] on [HorizontalAlign | undefined]. *)
Definition horizontal_eq (x y : option HorizontalAlign) : bool :=
  match x, y with
  | Some Hleft, Some Hleft | Some Hright, Some Hright
  | Some Hcenter, Some Hcenter | None, None => true
  | _, _ => false
  end.

(** [parts.push(s)] *)
Definition push (parts : list string) (s : string) : list string :=
  parts ++ [s].

(** The [parts] array of [textSizing] when the five [if] statements have
    run, in the order of the source. *)
Definition textSizing_parts (params : TextSizingParams) : list string :=
  let parts : list string := [] in
  (* Scale factor *)
  let parts :=
    if truthy (scale params) && gt (scale params) (Some 1)
    then push parts ("s=" ++ template (scale params))
    else parts in
  (* Width *)
  let parts :=
    if truthy (width params) && gt (width params) (Some 0)
    then push parts ("w=" ++ template (width params))
    else parts in
  (* Fractional scaling *)
  let parts :=
    if truthy (numerator params) && truthy (denominator params)
       && gt (denominator params) (numerator params)
    then push parts ("n=" ++ template (numerator params)
                     ++ ":d=" ++ template (denominator params))
    else parts in
  (* Vertical alignment *)
  let parts :=
    if present (verticalAlign params)
       && negb (vertical_eq (verticalAlign params) (Some Vtop))
    then
      let v := if vertical_eq (verticalAlign params) (Some Vbottom)
               then 1 else 2 in
      push parts ("v=" ++ decimal v)
    else parts in
  (* Horizontal alignment *)
  let parts :=
    if present (horizontalAlign params)
       && negb (horizontal_eq (horizontalAlign params) (Some Hleft))
    then
      let h := if horizontal_eq (horizontalAlign params) (Some Hright)
               then 1 else 2 in
      push parts ("h=" ++ decimal h)
    else parts in
  parts.

(** [const paramsStr = parts.length > 0 ? parts.join(":") + ";" : ";"] *)
Definition textSizing_paramsStr (params : TextSizingParams) : string :=
  let parts := textSizing_parts params in
  if (0 <? List.length parts)%nat then String.concat ":" parts ++ ";" else ";".

(** [textSizing: (params, text) => `\x1b]66${paramsStr}${text}\x1b\\`] *)
Definition textSizing (params : TextSizingParams) (text : string) : string :=
  ESC ++ "]66" ++ textSizing_paramsStr params ++ text ++ ESC ++ "\".

(** [scaledText: (scale, text) => `\x1b]66;s=${scale};${text}\x1b\\`] *)
Definition scaledText (scale : Z) (text : string) : string :=
  ESC ++ "]66;s=" ++ decimal scale ++ ";" ++ text ++ ESC ++ "\".

(** [fractionalText: (numerator, denominator, text) =>
    `\x1b]66;n=${numerator}:d=${denominator};${text}\x1b\\`] *)
Definition fractionalText (numerator denominator : Z) (text : string) : string :=
  ESC ++ "]66;n=" ++ decimal numerator ++ ":d=" ++ decimal denominator
      ++ ";" ++ text ++ ESC ++ "\".

(** [textSizingWithWidth: (scale, width, text) =>
    `\x1b]66;s=${scale}:w=${width};${text}\x1b\\`] *)
Definition textSizingWithWidth (scale width : Z) (text : string) : string :=
  ESC ++ "]66;s=" ++ decimal scale ++ ":w=" ++ decimal width
      ++ ";" ++ text ++ ESC ++ "\".

(** [explicitWidth: (width, text) => `\x1b]66;w=${width};${text}\x1b\\`] *)
Definition explicitWidth (width : Z) (text : string) : string :=
  ESC ++ "]66;w=" ++ decimal width ++ ";" ++ text ++ ESC ++ "\".

(** [scrollDown: (lines) => `\x1b[${lines}T`] *)
Definition scrollDown (lines : Z) : string :=
  ESC ++ "[" ++ decimal lines ++ "T".

(** [scrollUp: (lines) => `\x1b[${lines}S`] *)
Definition scrollUp (lines : Z) : string :=
  ESC ++ "[" ++ decimal lines ++ "S".

(** [moveCursor: (row, col) => `\x1b[${row};${col}H`] *)
Definition moveCursor (row col : Z) : string :=
  ESC ++ "[" ++ decimal row ++ ";" ++ decimal col ++ "H".

(** [moveCursorAndClear: (row, col) => `\x1b[${row};${col}H\x1b[J`] *)
Definition moveCursorAndClear (row col : Z) : string :=
  ESC ++ "[" ++ decimal row ++ ";" ++ decimal col ++ "H" ++ ESC ++ "[J".

(** [setRgbBackground: (r, g, b) => `\x1b[48;2;${r};${g};${b}m`] *)
Definition setRgbBackground (r g b : Z) : string :=
  ESC ++ "[48;2;" ++ decimal r ++ ";" ++ decimal g ++ ";" ++ decimal b ++ "m".

End Ts.

(** ** packages/core/src/zig/ansi.zig *)

Module Zig.

(** [pub const AnsiError = error{ InvalidFormat, WriteFailed }] *)
Inductive AnsiError : Type := InvalidFormat | WriteFailed.

(** [pub const VerticalAlign = enum(u8) { top = 0, bottom = 1, center = 2 }] *)
Inductive VerticalAlign : Type := top | bottom | center.

(** [pub const HorizontalAlign = enum(u8) { left = 0, right = 1, center = 2 }] *)
Inductive HorizontalAlign : Type := h_left | h_right | h_center.

(** [@intFromEnum] on the two enumerations. *)
Definition intFromVertical (v : VerticalAlign) : Z :=
  match v with top => 0 | bottom => 1 | center => 2 end.

Definition intFromHorizontal (h : HorizontalAlign) : Z :=
  match h with h_left => 0 | h_right => 1 | h_center => 2 end.

(** [!=] on the two enumerations compares the tag values. *)
Definition vertical_neq (a b : VerticalAlign) : bool :=
  negb (intFromVertical a =? intFromVertical b).

Definition horizontal_neq (a b : HorizontalAlign) : bool :=
  negb (intFromHorizontal a =? intFromHorizontal b).

(** [pub const TextSizingParams = struct {...}]; the four numbers are [u8]. *)
Record TextSizingParams : Type := mkParams {
  scale : Z;
  width : Z;
  numerator : Z;
  denominator : Z;
  vertical_align : VerticalAlign;
  horizontal_align : HorizontalAlign
}.

(** The field defaults of the struct declaration. *)
Definition default : TextSizingParams :=
  mkParams 1 0 0 0 top h_left.

(** The [writer: anytype] argument: the bytes written so far and, for a
    bounded sink, the number of bytes it still accepts ([None]: a growing
    buffer). *)
Record Writer : Type := mkWriter {
  written : string;
  room : option nat
}.

(** A computation over the writer that may stop with an [AnsiError]:
    the Zig return type [AnsiError!T]. *)
Definition M (A : Type) : Type := Writer -> AnsiError + (A * Writer).

Definition ret {A : Type} (a : A) : M A := fun w => inr (a, w).

Definition bind {A B : Type} (m : M A) (k : A -> M B) : M B :=
  fun w =>
    match m w with
    | inl e => inl e
    | inr (a, w') => k a w'
    end.

Notation "m ;; k" := (bind m (fun _ => k))
  (at level 61, right associativity).

(** [writer.writeAll(bytes) catch return AnsiError.WriteFailed] *)
Definition writeAll (bytes : string) : M unit :=
  fun w =>
    match room w with
    | None => inr (tt, mkWriter (written w ++ bytes) None)
    | Some n =>
        if (String.length bytes <=? n)%nat
        then inr (tt, mkWriter (written w ++ bytes)
                               (Some (n - String.length bytes)%nat))
        else inl WriteFailed
    end.

(** [writer.writeByte(c) catch return AnsiError.WriteFailed] *)
Definition writeByte (c : ascii) : M unit :=
  writeAll (String c EmptyString).

(** The [{d}] placeholder of [std.fmt.format]. *)
Definition fmt_d (z : Z) : string := decimal z.

(** [pub fn explicitWidthOutput(writer, width: u32, text)] *)
Definition explicitWidthOutput (width : Z) (text : string) : M unit :=
  writeAll (ESC ++ "]66;w=" ++ fmt_d width ++ ";" ++ text ++ ESC ++ "\").

(** The separator written before a field group after the first test:
    [if (needs_separator) writeByte(':') else { writeByte(';');
    needs_separator = true; }].  It returns the new [needs_separator]. *)
Definition separator (needs_separator : bool) : M bool :=
  if needs_separator
  then writeByte ":" ;; ret needs_separator
  else writeByte ";" ;; ret true.

(** [pub fn textSizingOutput(writer, params, text)] *)
Definition textSizingOutput (params : TextSizingParams) (text : string)
  : M unit :=
  (* Start OSC 66 *)
  writeAll (ESC ++ "]66") ;;
  let needs_separator := false in
  (* Scale factor *)
  bind (if 1 <? scale params
        then writeAll (";s=" ++ fmt_d (scale params)) ;; ret true
        else ret needs_separator) (fun needs_separator =>
  (* Width *)
  bind (if 0 <? width params
        then bind (separator needs_separator) (fun needs_separator =>
             writeAll ("w=" ++ fmt_d (width params)) ;; ret needs_separator)
        else ret needs_separator) (fun needs_separator =>
  (* Fractional scaling *)
  bind (if (0 <? numerator params)
           && (numerator params <? denominator params)
        then bind (separator needs_separator) (fun needs_separator =>
             writeAll ("n=" ++ fmt_d (numerator params)
                       ++ ":d=" ++ fmt_d (denominator params)) ;;
             ret needs_separator)
        else ret needs_separator) (fun needs_separator =>
  (* Vertical alignment *)
  bind (if vertical_neq (vertical_align params) top
        then bind (separator needs_separator) (fun needs_separator =>
             let v := intFromVertical (vertical_align params) in
             writeAll ("v=" ++ fmt_d v) ;; ret needs_separator)
        else ret needs_separator) (fun needs_separator =>
  (* Horizontal alignment *)
  bind (if horizontal_neq (horizontal_align params) h_left
        then bind (separator needs_separator) (fun needs_separator =>
             let h := intFromHorizontal (horizontal_align params) in
             writeAll ("h=" ++ fmt_d h) ;; ret needs_separator)
        else ret needs_separator) (fun _ =>
  (* Text content *)
  writeByte ";" ;;
  writeAll text ;;
  (* Terminator (ST - String Terminator) *)
  writeAll (ESC ++ "\")))))).

(** [pub fn scaledTextOutput(writer, scale: u8, text)] *)
Definition scaledTextOutput (scale : Z) (text : string) : M unit :=
  writeAll (ESC ++ "]66;s=" ++ fmt_d scale ++ ";" ++ text ++ ESC ++ "\").

(** [pub fn fractionalTextOutput(writer, numerator: u8, denominator: u8, text)] *)
Definition fractionalTextOutput (numerator denominator : Z) (text : string)
  : M unit :=
  writeAll (ESC ++ "]66;n=" ++ fmt_d numerator ++ ":d=" ++ fmt_d denominator
                ++ ";" ++ text ++ ESC ++ "\").

(** [pub fn textSizingWithWidthOutput(writer, scale: u8, width: u8, text)] *)
Definition textSizingWithWidthOutput (scale width : Z) (text : string)
  : M unit :=
  writeAll (ESC ++ "]66;s=" ++ fmt_d scale ++ ":w=" ++ fmt_d width
                ++ ";" ++ text ++ ESC ++ "\").

(** Terminal capability queries. *)
Definition cursorPositionRequest : string := ESC ++ "[6n".
Definition explicitWidthQuery : string := ESC ++ "]66;w=1; " ++ ESC ++ "\".
Definition scaledTextQuery : string := ESC ++ "]66;s=2; " ++ ESC ++ "\".

(** [if (c) body] with no [else]. *)
Definition when (c : bool) (body : M unit) : M unit :=
  if c then body else ret tt.

(** [pub fn moveToOutput(writer, x: u32, y: u32)]: the format
    ["\x1b[{d};{d}H"] is filled with [.{ y, x }]. *)
Definition moveToOutput (x y : Z) : M unit :=
  writeAll (ESC ++ "[" ++ fmt_d y ++ ";" ++ fmt_d x ++ "H").

(** [pub fn fgColorOutput(writer, r: u8, g: u8, b: u8)] *)
Definition fgColorOutput (r g b : Z) : M unit :=
  writeAll (ESC ++ "[38;2;" ++ fmt_d r ++ ";" ++ fmt_d g ++ ";" ++ fmt_d b
                ++ "m").

(** [pub fn bgColorOutput(writer, r: u8, g: u8, b: u8)] *)
Definition bgColorOutput (r g b : Z) : M unit :=
  writeAll (ESC ++ "[48;2;" ++ fmt_d r ++ ";" ++ fmt_d g ++ ";" ++ fmt_d b
                ++ "m").

(** Text attribute constants. *)
Definition bold : string := ESC ++ "[1m".
Definition dim : string := ESC ++ "[2m".
Definition italic : string := ESC ++ "[3m".
Definition underline : string := ESC ++ "[4m".
Definition blink : string := ESC ++ "[5m".
Definition inverse : string := ESC ++ "[7m".
Definition hidden : string := ESC ++ "[8m".
Definition strikethrough : string := ESC ++ "[9m".

(** Movement and erase. *)
Definition eraseBelowCursor : string := ESC ++ "[J".

(** The bell character, written [\x07] in the source. *)
Definition BEL : string := String "007"%char EmptyString.

(** Lower-case hexadecimal digits of a non-negative integer. *)
Definition hexadecimal (z : Z) : string :=
  HexadecimalString.NilZero.string_of_int (Z.to_hex_int z).

(** The [{x:0>2}] placeholder of [std.fmt.format]: lower-case hexadecimal,
    right-aligned in a field of width 2 filled with ['0']. *)
Definition fmt_x02 (z : Z) : string :=
  let digits := hexadecimal z in
  string_of_list_ascii (repeat "0"%char (2 - String.length digits))
  ++ digits.

(** [pub fn cursorColorOutputWriter(writer, r: u8, g: u8, b: u8)] *)
Definition cursorColorOutputWriter (r g b : Z) : M unit :=
  writeAll (ESC ++ "]12;#" ++ fmt_x02 r ++ fmt_x02 g ++ fmt_x02 b ++ BEL).

(** [pub const setTerminalTitle = "\x1b]0;{s}\x07"] and
    [pub fn setTerminalTitleOutput(writer, title)] *)
Definition setTerminalTitleOutput (title : string) : M unit :=
  writeAll (ESC ++ "]0;" ++ title ++ BEL).




(** [pub const TextAttributes = struct {...}]: the flags are [u8]. *)
Definition NONE : Z := 0.
Definition BOLD : Z := Z.shiftl 1 0.
Definition DIM : Z := Z.shiftl 1 1.
Definition ITALIC : Z := Z.shiftl 1 2.
Definition UNDERLINE : Z := Z.shiftl 1 3.
Definition BLINK : Z := Z.shiftl 1 4.
Definition INVERSE : Z := Z.shiftl 1 5.
Definition HIDDEN : Z := Z.shiftl 1 6.
Definition STRIKETHROUGH : Z := Z.shiftl 1 7.

(** [pub fn applyAttributesOutputWriter(writer, attributes: u8)] *)
Definition applyAttributesOutputWriter (attributes : Z) : M unit :=
  when (negb (Z.land attributes BOLD =? 0)) (writeAll bold) ;;
  when (negb (Z.land attributes DIM =? 0)) (writeAll dim) ;;
  when (negb (Z.land attributes ITALIC =? 0)) (writeAll italic) ;;
  when (negb (Z.land attributes UNDERLINE =? 0)) (writeAll underline) ;;
  when (negb (Z.land attributes BLINK =? 0)) (writeAll blink) ;;
  when (negb (Z.land attributes INVERSE =? 0)) (writeAll inverse) ;;
  when (negb (Z.land attributes HIDDEN =? 0)) (writeAll hidden) ;;
  when (negb (Z.land attributes STRIKETHROUGH =? 0)) (writeAll strikethrough).

End Zig.

(** ** Running the Zig encoders *)

(** A growing, initially empty sink, and the bytes a computation leaves
    in it ([None] when it stops with an error). *)
Definition growing_sink : Zig.Writer := Zig.mkWriter EmptyString None.

Definition written_by (m : Zig.M unit) : option string :=
  match m growing_sink with
  | inr (_, w) => Some (Zig.written w)
  | inl _ => None
  end.

(** A sink that accepts [n] more bytes. *)
Definition bounded_sink (n : nat) : Zig.Writer :=
  Zig.mkWriter EmptyString (Some n).

(** ** The parameter set carried by a [Ts.TextSizingParams]

    A missing field stands for its default: scale 1, width 0, numerator 0,
    denominator 0, vertical alignment top, horizontal alignment left. *)

Definition scaleOf (p : Ts.TextSizingParams) : Z :=
  match Ts.scale p with Some z => z | None => 1 end.

Definition widthOf (p : Ts.TextSizingParams) : Z :=
  match Ts.width p with Some z => z | None => 0 end.

Definition numeratorOf (p : Ts.TextSizingParams) : Z :=
  match Ts.numerator p with Some z => z | None => 0 end.

Definition denominatorOf (p : Ts.TextSizingParams) : Z :=
  match Ts.denominator p with Some z => z | None => 0 end.

Definition verticalOf (p : Ts.TextSizingParams) : Ts.VerticalAlign :=
  match Ts.verticalAlign p with Some v => v | None => Ts.Vtop end.

Definition horizontalOf (p : Ts.TextSizingParams) : Ts.HorizontalAlign :=
  match Ts.horizontalAlign p with Some h => h | None => Ts.Hleft end.

(** Every number lies in its valid range: scale 1-7, width 0-7, numerator
    and denominator 0-15. *)
Definition valid (p : Ts.TextSizingParams) : Prop :=
  1 <= scaleOf p <= 7 /\ 0 <= widthOf p <= 7 /\
  0 <= numeratorOf p <= 15 /\ 0 <= denominatorOf p <= 15.

(** The five field groups of the parameter block, and their fixed order. *)
Inductive Field : Type :=
  Fscale | Fwidth | Ffraction | Fvertical | Fhorizontal.

Definition fixed_order : list Field :=
  [Fscale; Fwidth; Ffraction; Fvertical; Fhorizontal].

Definition rank (f : Field) : nat :=
  match f with
  | Fscale => 0 | Fwidth => 1 | Ffraction => 2
  | Fvertical => 3 | Fhorizontal => 4
  end.

(** The wire codes of the alignments. *)
Definition vertical_code (v : Ts.VerticalAlign) : Z :=
  match v with Ts.Vtop => 0 | Ts.Vbottom => 1 | Ts.Vcenter => 2 end.

Definition horizontal_code (h : Ts.HorizontalAlign) : Z :=
  match h with Ts.Hleft => 0 | Ts.Hright => 1 | Ts.Hcenter => 2 end.

(** The specification's condition under which a field contributes: it
    differs from its default; the pair is active when the numerator is
    positive and the denominator exceeds it. *)
Definition contributes (p : Ts.TextSizingParams) (f : Field) : bool :=
  match f with
  | Fscale => 1 <? scaleOf p
  | Fwidth => 0 <? widthOf p
  | Ffraction => (0 <? numeratorOf p) && (numeratorOf p <? denominatorOf p)
  | Fvertical => negb (vertical_code (verticalOf p) =? 0)
  | Fhorizontal => negb (horizontal_code (horizontalOf p) =? 0)
  end.

(** The tests of [textSizing] read on the parameter set; they differ from
    [contributes] on the pair only, which the source tests for being
    non-zero rather than positive. *)
Definition pushed (p : Ts.TextSizingParams) (f : Field) : bool :=
  match f with
  | Ffraction =>
      negb (numeratorOf p =? 0) && negb (denominatorOf p =? 0)
      && (numeratorOf p <? denominatorOf p)
  | _ => contributes p f
  end.

(** The rendering [key=value] of a field group. *)
Definition group (p : Ts.TextSizingParams) (f : Field) : string :=
  match f with
  | Fscale => "s=" ++ decimal (scaleOf p)
  | Fwidth => "w=" ++ decimal (widthOf p)
  | Ffraction =>
      "n=" ++ decimal (numeratorOf p) ++ ":d=" ++ decimal (denominatorOf p)
  | Fvertical => "v=" ++ decimal (vertical_code (verticalOf p))
  | Fhorizontal => "h=" ++ decimal (horizontal_code (horizontalOf p))
  end.

(** The letters a field group is keyed by. *)
Definition keys (f : Field) : list ascii :=
  match f with
  | Fscale => ["s"%char]
  | Fwidth => ["w"%char]
  | Ffraction => ["n"%char; "d"%char]
  | Fvertical => ["v"%char]
  | Fhorizontal => ["h"%char]
  end.

(** Digits, the sign and the three punctuation marks of a parameter
    block. *)
Definition punctuation (c : ascii) : bool :=
  existsb (Ascii.eqb c) (chars "0123456789-=:;").

(** The field groups that contribute, in the fixed order. *)
Definition field_groups (p : Ts.TextSizingParams) : list string :=
  map (group p) (filter (contributes p) fixed_order).

(** The parameter set with the pair put back to its default. *)
Definition without_fraction (p : Ts.TextSizingParams) : Ts.TextSizingParams :=
  Ts.mkParams (Ts.scale p) (Ts.width p) (Some 0) (Some 0)
              (Ts.verticalAlign p) (Ts.horizontalAlign p).

(** The parameter set of the specification's examples with every field at
    its default. *)
Definition defaults : Ts.TextSizingParams :=
  Ts.mkParams (Some 1) (Some 0) (Some 0) (Some 0)
              (Some Ts.Vtop) (Some Ts.Hleft).

(** The object literal [{}]: every field is [undefined]. *)
Definition no_fields : Ts.TextSizingParams :=
  Ts.mkParams None None None None None None.

(** ** The same parameter set in the Zig struct *)

(** The values a [u8] holds. *)
Definition is_u8 (z : Z) : Prop := 0 <= z < 256.

(** The four numbers fit the [u8] fields of the Zig struct. *)
Definition representable (p : Ts.TextSizingParams) : Prop :=
  is_u8 (scaleOf p) /\ is_u8 (widthOf p) /\
  is_u8 (numeratorOf p) /\ is_u8 (denominatorOf p).

Definition toZigVertical (v : Ts.VerticalAlign) : Zig.VerticalAlign :=
  match v with
  | Ts.Vtop => Zig.top | Ts.Vbottom => Zig.bottom | Ts.Vcenter => Zig.center
  end.

Definition toZigHorizontal (h : Ts.HorizontalAlign) : Zig.HorizontalAlign :=
  match h with
  | Ts.Hleft => Zig.h_left | Ts.Hright => Zig.h_right
  | Ts.Hcenter => Zig.h_center
  end.

(** The Zig struct holding the same parameter set; a field the TypeScript
    object leaves out takes the default of the struct declaration. *)
Definition toZig (p : Ts.TextSizingParams) : Zig.TextSizingParams :=
  Zig.mkParams (scaleOf p) (widthOf p) (numeratorOf p) (denominatorOf p)
               (toZigVertical (verticalOf p))
               (toZigHorizontal (horizontalOf p)).

(** A parameter set in which one field only is set. *)
Definition only_scale (scale : Z) : Ts.TextSizingParams :=
  Ts.mkParams (Some scale) None None None None None.

Definition only_width (width : Z) : Ts.TextSizingParams :=
  Ts.mkParams None (Some width) None None None None.

Definition only_fraction (numerator denominator : Z) : Ts.TextSizingParams :=
  Ts.mkParams None None (Some numerator) (Some denominator) None None.

Definition scale_and_width (scale width : Z) : Ts.TextSizingParams :=
  Ts.mkParams (Some scale) (Some width) None None None None.

(** ** The two policies the specification allows for an invalid value *)





(** A byte string given by the codes of its bytes. *)
Definition bytes (codes : list nat) : string :=
  string_of_list_ascii (map ascii_of_nat codes).

(** Splitting the fixed order around two fields [f1] before [f2]. *)
Definition before (f : Field) : list Field := firstn (rank f) fixed_order.

Definition between (f1 f2 : Field) : list Field :=
  firstn (rank f2 - S (rank f1)) (skipn (S (rank f1)) fixed_order).

Definition after (f : Field) : list Field := skipn (S (rank f)) fixed_order.

(** ** Notions for the remaining encoders *)

(** A computation writes the bytes [a] and hands back [x]: on every sink
    it behaves as one [writeAll a] followed by [ret x]. *)
Definition writes {A : Type} (m : Zig.M A) (a : string) (x : A) : Prop :=
  forall w : Zig.Writer,
    m w = match Zig.writeAll a w with
          | inl e => inl e
          | inr (_, w') => inr (x, w')
          end.

Definition fromZigVertical (v : Zig.VerticalAlign) : Ts.VerticalAlign :=
  match v with
  | Zig.top => Ts.Vtop | Zig.bottom => Ts.Vbottom | Zig.center => Ts.Vcenter
  end.

Definition fromZigHorizontal (h : Zig.HorizontalAlign) : Ts.HorizontalAlign :=
  match h with
  | Zig.h_left => Ts.Hleft | Zig.h_right => Ts.Hright
  | Zig.h_center => Ts.Hcenter
  end.

(** The TypeScript object with the fields of a Zig struct. *)
Definition fromZig (zp : Zig.TextSizingParams) : Ts.TextSizingParams :=
  Ts.mkParams (Some (Zig.scale zp)) (Some (Zig.width zp))
              (Some (Zig.numerator zp)) (Some (Zig.denominator zp))
              (Some (fromZigVertical (Zig.vertical_align zp)))
              (Some (fromZigHorizontal (Zig.horizontal_align zp))).

(** The bytes of a whole sizing sequence as [textSizingOutput] lays them
    out: a semicolon before the field groups when there are some, and the
    semicolon before the text. *)
Definition sizing_sequence (zp : Zig.TextSizingParams) (text : string)
  : string :=
  ESC ++ "]66"
      ++ match field_groups (fromZig zp) with
         | [] => EmptyString
         | gs => ";" ++ String.concat ":" gs
         end
      ++ ";" ++ text ++ ESC ++ "\".

(** A parameter set with every field written out, a scale below 1 read
    as 1 and a width below 0 read as 0. *)
Definition normalise (p : Ts.TextSizingParams) : Ts.TextSizingParams :=
  Ts.mkParams (Some (Z.max 1 (scaleOf p))) (Some (Z.max 0 (widthOf p)))
              (Some (numeratorOf p)) (Some (denominatorOf p))
              (Some (verticalOf p)) (Some (horizontalOf p)).


(** An integer that a template literal renders in plain decimal digits:
    its magnitude is below 1e21. *)
Definition plain_number (z : Z) : Prop := Z.abs z < 10 ^ 21.

(** The four numbers of a parameter set are rendered in plain decimal
    digits. *)
Definition plain (p : Ts.TextSizingParams) : Prop :=
  plain_number (scaleOf p) /\ plain_number (widthOf p) /\
  plain_number (numeratorOf p) /\ plain_number (denominatorOf p).

(** Digits and the sign: the characters of a decimal rendering. *)
Definition numeral (c : ascii) : bool :=
  existsb (Ascii.eqb c) (chars "0123456789-").

(** The values of a [u8], in order. *)
Definition u8_values : list Z := map Z.of_nat (seq 0 256).

(** The number of flags set in a [u8]. *)
Definition popcount (z : Z) : nat :=
  List.length (filter (Z.testbit z) (map Z.of_nat (seq 0 8))).

(** The bit of each text attribute and the sequence that switches it on,
    in the order [applyAttributesOutputWriter] tests them. *)
Definition attribute_table : list (Z * string) :=
  [(0, Zig.bold); (1, Zig.dim); (2, Zig.italic); (3, Zig.underline);
   (4, Zig.blink); (5, Zig.inverse); (6, Zig.hidden);
   (7, Zig.strikethrough)].

(** The sequences of the attributes set in [attributes], joined in the
    order of the table. *)
Definition attribute_bytes (attributes : Z) : string :=
  String.concat EmptyString
    (map snd (filter (fun e => Z.testbit attributes (fst e))
                     attribute_table)).

(** The value of a lower-case hexadecimal digit. *)
Definition hex_digit_value (c : ascii) : option Z :=
  match index 0 (String c EmptyString) "0123456789abcdef" with
  | Some i => Some (Z.of_nat i)
  | None => None
  end.

(** Reading two hexadecimal digits off the front of a string. *)
Definition read_hex2 (s : string) : option (Z * string) :=
  match s with
  | String c1 (String c2 rest) =>
      match hex_digit_value c1, hex_digit_value c2 with
      | Some h, Some l => Some (16 * h + l, rest)
      | _, _ => None
      end
  | _ => None
  end.

(** Reading back the colour of a cursor colour sequence
    [ESC ] 12 ; # rrggbb BEL]. *)
Definition read_cursor_color (s : string) : option (Z * Z * Z) :=
  match s with
  | String e (String "]" (String "1" (String "2" (String ";"
      (String "#" body))))) =>
      if Ascii.eqb e "027" then
        match read_hex2 body with
        | Some (r, body1) =>
            match read_hex2 body1 with
            | Some (g, body2) =>
                match read_hex2 body2 with
                | Some (b, tail) =>
                    if String.eqb tail Zig.BEL then Some (r, g, b) else None
                | None => None
                end
            | None => None
            end
        | None => None
        end
      else None
  | _ => None
  end.


(** ** Strings *)

Section Strings.

Lemma chars_app (a b : string) : chars (a ++ b) = (chars a ++ chars b)%list.
Proof.
  induction a as [|c a IH]; simpl; [reflexivity|].
  unfold chars in *; simpl; now rewrite IH.
Qed.

Lemma chars_inj (a b : string) : chars a = chars b -> a = b.
Proof.
  intros H.
  rewrite <- (string_of_list_ascii_of_string a),
          <- (string_of_list_ascii_of_string b).
  unfold chars in H; now rewrite H.
Qed.

Lemma append_assoc (a b c : string) : (a ++ b) ++ c = a ++ b ++ c.
Proof.
  induction a as [|x a IH]; simpl; [reflexivity | now rewrite IH].
Qed.

Lemma append_empty_r (a : string) : a ++ EmptyString = a.
Proof.
  induction a as [|x a IH]; simpl; [reflexivity | now rewrite IH].
Qed.

Lemma append_inv_tail (a b r : string) : a ++ r = b ++ r -> a = b.
Proof.
  intros H. apply chars_inj.
  apply (f_equal chars) in H. rewrite !chars_app in H.
  now apply app_inv_tail in H.
Qed.

Lemma append_inv_head (a b r : string) : r ++ a = r ++ b -> a = b.
Proof.
  induction r as [|x r IH]; simpl; [easy|].
  intros H; injection H; auto.
Qed.

Lemma prefix_app (pat s : string) : String.prefix pat (pat ++ s) = true.
Proof.
  induction pat as [|c pat IH]; simpl.
  - now destruct s.
  - destruct (ascii_dec c c); [exact IH | congruence].
Qed.

Lemma prefix_chars (pat s : string) :
  String.prefix pat s = true -> incl (chars pat) (chars s).
Proof.
  revert s; induction pat as [|c pat IH]; intros s H x Hx.
  - destruct Hx.
  - destruct s as [|d s]; simpl in H; [discriminate|].
    destruct (ascii_dec c d) as [->|]; [|discriminate].
    destruct Hx as [<-|Hx]; [now left | right; now apply (IH s)].
Qed.

Lemma includes_unfold (s pat : string) :
  includes s pat =
  String.prefix pat s ||
  match s with EmptyString => false | String _ s' => includes s' pat end.
Proof. destruct s; reflexivity. Qed.

Lemma includes_here (pat s : string) : includes (pat ++ s) pat = true.
Proof. rewrite includes_unfold, prefix_app. reflexivity. Qed.

Lemma includes_app_r (a b pat : string) :
  includes b pat = true -> includes (a ++ b) pat = true.
Proof.
  intros H; induction a as [|c a IH]; simpl; [exact H|].
  rewrite IH; apply orb_true_r.
Qed.

Lemma includes_mid (a pat b : string) : includes (a ++ pat ++ b) pat = true.
Proof. apply includes_app_r, includes_here. Qed.

Lemma includes_chars (s pat : string) :
  includes s pat = true -> incl (chars pat) (chars s).
Proof.
  induction s as [|c s IH]; rewrite includes_unfold; intros H.
  - rewrite orb_false_r in H. now apply prefix_chars in H.
  - apply orb_true_iff in H as [H|H].
    + now apply prefix_chars in H.
    + intros x Hx; right; now apply IH.
Qed.

(** A pattern with a character that the string lacks does not occur. *)
Lemma includes_absent (s pat : string) (c : ascii) :
  In c (chars pat) -> ~ In c (chars s) -> includes s pat = false.
Proof.
  intros Hc Hs. destruct (includes s pat) eqn:E; [|reflexivity].
  exfalso; apply Hs; now apply (includes_chars s pat).
Qed.

Lemma concat_chars (sep : string) (l : list string) (c : ascii) :
  In c (chars (String.concat sep l)) ->
  In c (chars sep) \/ exists g, In g l /\ In c (chars g).
Proof.
  induction l as [|x l IH]; simpl; [intros []|].
  destruct l as [|y l].
  - intros H; right; exists x; auto.
  - rewrite !chars_app, !in_app_iff. intros [H|[H|H]].
    + right; exists x; auto.
    + now left.
    + destruct (IH H) as [?|[g [Hg ?]]]; [now left|].
      right; exists g; split; [now right | assumption].
Qed.

Lemma concat_split (sep g : string) (l : list string) :
  In g l -> exists a b, String.concat sep l = a ++ g ++ b.
Proof.
  induction l as [|x l IH]; [intros []|].
  intros [->|H].
  - exists EmptyString. destruct l as [|y l]; simpl.
    + exists EmptyString. simpl. now rewrite append_empty_r.
    + now exists (sep ++ String.concat sep (y :: l)).
  - destruct (IH H) as [a [b E]]. destruct l as [|y l]; [destruct H|].
    exists (x ++ sep ++ a), b.
    change (String.concat sep (x :: y :: l))
      with (x ++ sep ++ String.concat sep (y :: l)).
    now rewrite E, !append_assoc.
Qed.

End Strings.

(** ** Decimal rendering *)

Section Decimal.

Lemma uint_chars (u : uint) (c : ascii) :
  In c (chars (NilEmpty.string_of_uint u)) -> punctuation c = true.
Proof.
  induction u; simpl; try (intros []; fail);
    (intros [<-|H]; [reflexivity | now apply IHu]).
Qed.

Lemma decimal_chars (z : Z) (c : ascii) :
  In c (chars (decimal z)) -> punctuation c = true.
Proof.
  unfold decimal, NilZero.string_of_int, NilZero.string_of_uint.
  destruct (Z.to_int z) as [u|u].
  - destruct u; try apply uint_chars. simpl. now intros [<-|[]].
  - intros [<-|H]; [reflexivity|]. revert H.
    destruct u; try apply uint_chars. simpl. now intros [<-|[]].
Qed.

Lemma to_int_not_nil (z : Z) : Z.to_int z <> Pos Nil /\ Z.to_int z <> Neg Nil.
Proof.
  destruct z as [|q|q]; simpl; split; try discriminate;
    intros H; injection H as H; revert H;
    apply DecimalPos.Unsigned.to_uint_nonnil.
Qed.

Lemma decimal_inj (a b : Z) : decimal a = decimal b -> a = b.
Proof.
  unfold decimal; intros H.
  apply DecimalZ.to_int_inj.
  apply (f_equal NilZero.int_of_string) in H.
  destruct (to_int_not_nil a), (to_int_not_nil b).
  rewrite !NilZero.isi in H by assumption.
  now injection H.
Qed.

End Decimal.

(** ** The general encoder of [ansi.ts] *)

Section TextSizing.

Lemma scale_test (p : Ts.TextSizingParams) :
  Ts.truthy (Ts.scale p) && Ts.gt (Ts.scale p) (Some 1) = pushed p Fscale.
Proof.
  unfold pushed, contributes, scaleOf. destruct (Ts.scale p) as [z|]; simpl.
  - destruct (Z.ltb_spec 1 z), (Z.eqb_spec z 0); simpl; try reflexivity; lia.
  - reflexivity.
Qed.

Lemma width_test (p : Ts.TextSizingParams) :
  Ts.truthy (Ts.width p) && Ts.gt (Ts.width p) (Some 0) = pushed p Fwidth.
Proof.
  unfold pushed, contributes, widthOf. destruct (Ts.width p) as [z|]; simpl.
  - destruct (Z.ltb_spec 0 z), (Z.eqb_spec z 0); simpl; try reflexivity; lia.
  - reflexivity.
Qed.

Lemma fraction_test (p : Ts.TextSizingParams) :
  Ts.truthy (Ts.numerator p) && Ts.truthy (Ts.denominator p)
  && Ts.gt (Ts.denominator p) (Ts.numerator p) = pushed p Ffraction.
Proof.
  unfold pushed, numeratorOf, denominatorOf.
  destruct (Ts.numerator p) as [n|], (Ts.denominator p) as [d|]; simpl;
    try reflexivity.
  now rewrite !andb_false_r.
Qed.

(** The array [parts] holds the groups whose test passed, in the fixed
    order. *)
Lemma parts_pushed (p : Ts.TextSizingParams) :
  Ts.textSizing_parts p = map (group p) (filter (pushed p) fixed_order).
Proof.
  unfold Ts.textSizing_parts.
  rewrite scale_test, width_test, fraction_test.
  assert (T : forall x : option Z, Ts.template x
              = decimal (match x with Some z => z | None => 0 end)
              \/ x = None).
  { intros [z|]; [now left | now right]. }
  unfold fixed_order, filter.
  assert (Hs : pushed p Fscale = true -> Ts.template (Ts.scale p)
                                         = decimal (scaleOf p)).
  { unfold pushed, contributes, scaleOf.
    destruct (Ts.scale p); [reflexivity | discriminate]. }
  assert (Hw : pushed p Fwidth = true -> Ts.template (Ts.width p)
                                         = decimal (widthOf p)).
  { unfold pushed, contributes, widthOf.
    destruct (Ts.width p); [reflexivity | discriminate]. }
  assert (Hf : pushed p Ffraction = true ->
               Ts.template (Ts.numerator p) = decimal (numeratorOf p) /\
               Ts.template (Ts.denominator p) = decimal (denominatorOf p)).
  { unfold pushed, numeratorOf, denominatorOf.
    destruct (Ts.numerator p), (Ts.denominator p); simpl; intros H;
      rewrite ?andb_false_r in H; simpl in H; try discriminate H; auto. }
  assert (Hv : (Ts.present (Ts.verticalAlign p)
                && negb (Ts.vertical_eq (Ts.verticalAlign p) (Some Ts.Vtop))
                = pushed p Fvertical) /\
               (if Ts.vertical_eq (Ts.verticalAlign p) (Some Ts.Vbottom)
                then 1 else 2) = (if pushed p Fvertical
                                  then vertical_code (verticalOf p) else 2)).
  { unfold pushed, contributes, verticalOf.
    destruct (Ts.verticalAlign p) as [[]|]; split; reflexivity. }
  assert (Hh : (Ts.present (Ts.horizontalAlign p)
                && negb (Ts.horizontal_eq (Ts.horizontalAlign p)
                                          (Some Ts.Hleft))
                = pushed p Fhorizontal) /\
               (if Ts.horizontal_eq (Ts.horizontalAlign p) (Some Ts.Hright)
                then 1 else 2) = (if pushed p Fhorizontal
                                  then horizontal_code (horizontalOf p)
                                  else 2)).
  { unfold pushed, contributes, horizontalOf.
    destruct (Ts.horizontalAlign p) as [[]|]; split; reflexivity. }
  destruct Hv as [-> ->], Hh as [-> ->].
  destruct (pushed p Fscale); [rewrite (Hs eq_refl)|];
  destruct (pushed p Fwidth); [rewrite (Hw eq_refl)| |rewrite (Hw eq_refl)|];
  destruct (pushed p Ffraction);
    try (destruct (Hf eq_refl) as [-> ->]);
  destruct (pushed p Fvertical), (pushed p Fhorizontal); reflexivity.
Qed.

Lemma pushed_contributes (p : Ts.TextSizingParams) (f : Field) :
  0 <= numeratorOf p -> pushed p f = contributes p f.
Proof.
  intros H. destruct f; try reflexivity. simpl.
  destruct (Z.ltb_spec 0 (numeratorOf p)), (Z.eqb_spec (numeratorOf p) 0),
           (Z.ltb_spec (numeratorOf p) (denominatorOf p)),
           (Z.eqb_spec (denominatorOf p) 0); simpl; try reflexivity; lia.
Qed.

Lemma parts_field_groups (p : Ts.TextSizingParams) :
  0 <= numeratorOf p -> Ts.textSizing_parts p = field_groups p.
Proof.
  intros H. rewrite parts_pushed. unfold field_groups. f_equal.
  apply filter_ext. intros f. now apply pushed_contributes.
Qed.

(** The parameter block is the joined array followed by one semicolon,
    also when the array is empty. *)
Lemma paramsStr_join (p : Ts.TextSizingParams) :
  Ts.textSizing_paramsStr p
  = String.concat ":" (Ts.textSizing_parts p) ++ ";".
Proof.
  unfold Ts.textSizing_paramsStr.
  destruct (Ts.textSizing_parts p); reflexivity.
Qed.

Lemma group_chars (p : Ts.TextSizingParams) (f : Field) (c : ascii) :
  In c (chars (group p f)) -> In c (keys f) \/ punctuation c = true.
Proof.
  destruct f; unfold group; rewrite !chars_app, !in_app_iff; simpl;
    intuition (subst; auto);
    right; solve [reflexivity | eapply decimal_chars; eassumption].
Qed.

Lemma paramsStr_chars (p : Ts.TextSizingParams) (c : ascii) :
  In c (chars (Ts.textSizing_paramsStr p)) ->
  punctuation c = true \/ exists f, pushed p f = true /\ In c (keys f).
Proof.
  rewrite paramsStr_join, chars_app, in_app_iff, parts_pushed.
  intros [H|[<-|[]]]; [|now left].
  apply concat_chars in H as [[<-|[]]|[g [Hg Hc]]]; [now left|].
  apply in_map_iff in Hg as [f [<- Hf]].
  apply filter_In in Hf as [_ Hf].
  destruct (group_chars p f c Hc) as [?|?]; [right; now exists f | now left].
Qed.

Lemma paramsStr_group (p : Ts.TextSizingParams) (f : Field) :
  pushed p f = true -> includes (Ts.textSizing_paramsStr p) (group p f) = true.
Proof.
  intros H.
  assert (Hin : In (group p f) (Ts.textSizing_parts p)).
  { rewrite parts_pushed. apply in_map, filter_In. split; [|exact H].
    destruct f; simpl; auto 6. }
  destruct (concat_split ":" _ _ Hin) as [a [b E]].
  rewrite paramsStr_join, E, !append_assoc. apply includes_mid.
Qed.

(** A key letter occurs in the parameter block only when its group was
    pushed. *)
Lemma paramsStr_key (p : Ts.TextSizingParams) (f : Field) (c : ascii) :
  In c (keys f) -> In c (chars (Ts.textSizing_paramsStr p)) ->
  pushed p f = true.
Proof.
  intros Hk Hc. apply paramsStr_chars in Hc as [Hc|[f' [Hf' Hc]]].
  - destruct f; simpl in Hk; intuition (subst; discriminate).
  - destruct f, f'; simpl in Hk, Hc; try assumption;
      intuition (subst; discriminate).
Qed.

End TextSizing.

(** ** The general encoder of [ansi.zig] *)

Section TextSizingOutput.

Lemma zig_tests (p : Ts.TextSizingParams) :
  (1 <? Zig.scale (toZig p)) = contributes p Fscale /\
  (0 <? Zig.width (toZig p)) = contributes p Fwidth /\
  (0 <? Zig.numerator (toZig p))
    && (Zig.numerator (toZig p) <? Zig.denominator (toZig p))
    = contributes p Ffraction /\
  Zig.vertical_neq (Zig.vertical_align (toZig p)) Zig.top
    = contributes p Fvertical /\
  Zig.horizontal_neq (Zig.horizontal_align (toZig p)) Zig.h_left
    = contributes p Fhorizontal /\
  Zig.intFromVertical (Zig.vertical_align (toZig p))
    = vertical_code (verticalOf p) /\
  Zig.intFromHorizontal (Zig.horizontal_align (toZig p))
    = horizontal_code (horizontalOf p).
Proof.
  unfold toZig, contributes; simpl.
  destruct (verticalOf p), (horizontalOf p); repeat split.
Qed.

(** On a growing sink the Zig encoder writes the introducer, then, when
    some field contributes, a semicolon and the colon-joined groups, then
    a semicolon, the text and the terminator. *)
Lemma textSizingOutput_bytes (p : Ts.TextSizingParams) (text : string) :
  written_by (Zig.textSizingOutput (toZig p) text)
  = Some (ESC ++ "]66"
          ++ match field_groups p with
             | [] => EmptyString
             | gs => ";" ++ String.concat ":" gs
             end
          ++ ";" ++ text ++ ESC ++ "\").
Proof.
  destruct (zig_tests p) as (Hs & Hw & Hf & Hv & Hh & Cv & Ch).
  unfold written_by, growing_sink, Zig.textSizingOutput.
  rewrite Hs, Hw, Hf, Hv, Hh, Cv, Ch.
  unfold field_groups, fixed_order, filter, Zig.fmt_d.
  destruct (contributes p Fscale), (contributes p Fwidth),
           (contributes p Ffraction), (contributes p Fvertical),
           (contributes p Fhorizontal);
    cbn [Zig.bind Zig.ret Zig.separator Zig.writeByte Zig.writeAll
         Zig.room Zig.written map group String.concat];
    f_equal; unfold ESC;
    cbn [toZig Zig.scale Zig.width Zig.numerator Zig.denominator];
    repeat (rewrite ?append_assoc; cbn [append]); reflexivity.
Qed.

(** A sink with no room left makes the encoder stop with [WriteFailed]
    at its first write. *)
Lemma textSizingOutput_no_room (zp : Zig.TextSizingParams) (text : string) :
  Zig.textSizingOutput zp text (bounded_sink 0) = inl Zig.WriteFailed.
Proof. reflexivity. Qed.

End TextSizingOutput.

(** ** The wire format of [textSizing] *)

Section WireFormat.

(** With a non-negative numerator the output is the introducer, the
    colon-joined contributing groups, a semicolon, the text and the
    terminator. *)
Lemma textSizing_field_groups (p : Ts.TextSizingParams) (text : string) :
  0 <= numeratorOf p ->
  Ts.textSizing p text
  = ESC ++ "]66" ++ String.concat ":" (field_groups p) ++ ";"
        ++ text ++ ESC ++ "\".
Proof.
  intros H. unfold Ts.textSizing.
  rewrite paramsStr_join, parts_field_groups by assumption.
  now rewrite !append_assoc.
Qed.

Lemma key_absent (p : Ts.TextSizingParams) (f : Field) (c : ascii)
      (pat : string) :
  pushed p f = false -> In c (keys f) -> In c (chars pat) ->
  includes (Ts.textSizing_paramsStr p) pat = false.
Proof.
  intros Hp Hk Hc. apply (includes_absent _ _ c Hc).
  intros H. rewrite (paramsStr_key p f c Hk H) in Hp. discriminate.
Qed.

Lemma group_occurs_iff (p : Ts.TextSizingParams) (f : Field) :
  includes (Ts.textSizing_paramsStr p) (group p f) = true
  <-> pushed p f = true.
Proof.
  split; [|apply paramsStr_group].
  intros H. destruct (pushed p f) eqn:E; [reflexivity|].
  assert (K : exists c, In c (keys f) /\ In c (chars (group p f))).
  { destruct f; eexists; (split; [left; reflexivity|]);
      unfold group; rewrite chars_app; simpl; auto. }
  destruct K as [c [Hk Hc]].
  rewrite (key_absent p f c _ E Hk Hc) in H. discriminate.
Qed.

(** C1, as amended.  For every parameter set in its valid ranges the
    output of [textSizing] is ESC ] 66, at most one semicolon, the
    colon-joined contributing field groups, one semicolon, the text and
    ESC \; when no field contributes, a single semicolon stands between
    the code 66 and the text. *)
Theorem textSizing_shape (p : Ts.TextSizingParams) (text : string) :
  valid p ->
  (exists sep : string,
      (sep = EmptyString \/ sep = ";") /\
      Ts.textSizing p text
      = ESC ++ "]66" ++ sep ++ String.concat ":" (field_groups p)
            ++ ";" ++ text ++ ESC ++ "\") /\
  (field_groups p = [] ->
   Ts.textSizing p text = ESC ++ "]66;" ++ text ++ ESC ++ "\").
Proof.
  intros (_ & _ & [Hn _] & _). split.
  - exists EmptyString. split; [now left|].
    now rewrite textSizing_field_groups.
  - intros E. rewrite textSizing_field_groups, E by assumption. reflexivity.
Qed.

Lemma textSizing_shape_witness :
  (exists sep : string,
      (sep = EmptyString \/ sep = ";") /\
      Ts.textSizing defaults "hi"
      = ESC ++ "]66" ++ sep ++ String.concat ":" (field_groups defaults)
            ++ ";" ++ "hi" ++ ESC ++ "\") /\
  (field_groups defaults = [] ->
   Ts.textSizing defaults "hi" = ESC ++ "]66;" ++ "hi" ++ ESC ++ "\").
Proof.
  apply (textSizing_shape defaults "hi").
  unfold valid; repeat split; vm_compute; discriminate.
Defined.

(** C1, as stated, fails on the all-default parameter set: the output has
    one semicolon before the payload, not two. *)
Lemma textSizing_defaults_one_semicolon :
  Ts.textSizing defaults "hi" = ESC ++ "]66;hi" ++ ESC ++ "\" /\
  Ts.textSizing defaults "hi" <> ESC ++ "]66;;hi" ++ ESC ++ "\".
Proof.
  split; [reflexivity|].
  intros H. vm_compute in H. discriminate H.
Qed.

Lemma without_fraction_parts (p : Ts.TextSizingParams) :
  pushed p Ffraction = false ->
  Ts.textSizing_parts (without_fraction p) = Ts.textSizing_parts p.
Proof.
  intros H. rewrite !parts_pushed. unfold fixed_order, filter.
  rewrite H.
  change (pushed (without_fraction p) Ffraction) with false.
  change (pushed (without_fraction p) Fscale) with (pushed p Fscale).
  change (pushed (without_fraction p) Fwidth) with (pushed p Fwidth).
  change (pushed (without_fraction p) Fvertical) with (pushed p Fvertical).
  change (pushed (without_fraction p) Fhorizontal)
    with (pushed p Fhorizontal).
  destruct (pushed p Fscale), (pushed p Fwidth), (pushed p Fvertical),
           (pushed p Fhorizontal); reflexivity.
Qed.

(** C4.  When the numerator is zero or the denominator does not exceed
    it, the parameter block holds neither [n=] nor [d=], and the output is
    the one of the same parameter set with numerator and denominator at
    their defaults. *)
Theorem fractional_pair_atomic (p : Ts.TextSizingParams) (text : string) :
  numeratorOf p = 0 \/ denominatorOf p <= numeratorOf p ->
  includes (Ts.textSizing_paramsStr p) "n=" = false /\
  includes (Ts.textSizing_paramsStr p) "d=" = false /\
  Ts.textSizing p text = ESC ++ "]66" ++ Ts.textSizing_paramsStr p
                             ++ text ++ ESC ++ "\" /\
  Ts.textSizing p text = Ts.textSizing (without_fraction p) text.
Proof.
  intros H.
  assert (E : pushed p Ffraction = false).
  { simpl. destruct H as [-> | H]; [reflexivity|].
    destruct (Z.ltb_spec (numeratorOf p) (denominatorOf p)); [lia|].
    apply andb_false_r. }
  repeat split.
  - apply (key_absent p Ffraction "n"); simpl; auto.
  - apply (key_absent p Ffraction "d"); simpl; auto.
  - unfold Ts.textSizing, Ts.textSizing_paramsStr.
    now rewrite without_fraction_parts.
Qed.

Lemma fractional_pair_atomic_witness :
  let p := Ts.mkParams None None (Some 3) (Some 2) None None in
  includes (Ts.textSizing_paramsStr p) "n=" = false /\
  includes (Ts.textSizing_paramsStr p) "d=" = false /\
  Ts.textSizing p "x" = ESC ++ "]66" ++ Ts.textSizing_paramsStr p
                            ++ "x" ++ ESC ++ "\" /\
  Ts.textSizing p "x" = Ts.textSizing (without_fraction p) "x".
Proof.
  apply (fractional_pair_atomic
           (Ts.mkParams None None (Some 3) (Some 2) None None) "x").
  right. vm_compute. discriminate.
Defined.

Lemma fixed_order_split (f1 f2 : Field) :
  (rank f1 < rank f2)%nat ->
  fixed_order = (before f1 ++ f1 :: between f1 f2 ++ f2 :: after f2)%list.
Proof.
  destruct f1, f2; simpl; intros H; try lia; reflexivity.
Qed.

Lemma concat_app_split (sep : string) (l1 l2 : list string) (g : string) :
  exists a b, String.concat sep (l1 ++ g :: l2)%list = a ++ g ++ b /\
              (l2 <> [] -> b = sep ++ String.concat sep l2) /\
              (l2 = [] -> b = EmptyString).
Proof.
  induction l1 as [|x l1 IH].
  - exists EmptyString. destruct l2 as [|y l2].
    + exists EmptyString. simpl. rewrite append_empty_r. now repeat split.
    + exists (sep ++ String.concat sep (y :: l2)).
      repeat split; auto; discriminate.
  - destruct IH as (a & b & E & Hb).
    exists (x ++ sep ++ a), b. split; [|exact Hb].
    change ((x :: l1) ++ g :: l2)%list with (x :: (l1 ++ g :: l2))%list.
    destruct (l1 ++ g :: l2)%list eqn:El; [now destruct l1|].
    change (String.concat sep (x :: s :: l))
      with (x ++ sep ++ String.concat sep (s :: l)).
    now rewrite E, !append_assoc.
Qed.

(** Two members of a list occur in its join in the order of the list. *)
Lemma concat_two (sep : string) (l1 l2 l3 : list string) (g1 g2 : string) :
  exists a b c,
    String.concat sep (l1 ++ g1 :: l2 ++ g2 :: l3)%list
    = a ++ g1 ++ b ++ g2 ++ c.
Proof.
  destruct (concat_app_split sep l1 (l2 ++ g2 :: l3)%list g1)
    as (a & r & E & Hr & _).
  destruct (concat_app_split sep l2 l3 g2) as (a' & c & E' & _).
  exists a, (sep ++ a'), c.
  rewrite E, Hr by (now destruct l2). now rewrite E', !append_assoc.
Qed.

(** C5.  For every parameter set in its valid ranges the array of field
    groups is the contributing groups in the order scale, width, pair,
    vertical alignment, horizontal alignment; the parameter block joins
    them with colons and ends with a semicolon; and of two contributing
    fields the one earlier in that order occurs first in the block. *)
Theorem field_groups_in_fixed_order (p : Ts.TextSizingParams)
        (text : string) :
  valid p ->
  Ts.textSizing_parts p
  = map (group p)
        (filter (contributes p)
                [Fscale; Fwidth; Ffraction; Fvertical; Fhorizontal]) /\
  Ts.textSizing_paramsStr p
  = String.concat ":" (Ts.textSizing_parts p) ++ ";" /\
  Ts.textSizing p text
  = ESC ++ "]66" ++ Ts.textSizing_paramsStr p ++ text ++ ESC ++ "\" /\
  (forall f1 f2 : Field,
      contributes p f1 = true -> contributes p f2 = true ->
      (rank f1 < rank f2)%nat ->
      exists a b c,
        Ts.textSizing_paramsStr p
        = a ++ group p f1 ++ b ++ group p f2 ++ c).
Proof.
  intros (_ & _ & [Hn _] & _).
  split; [now apply parts_field_groups|].
  split; [apply paramsStr_join|].
  split; [reflexivity|].
  intros f1 f2 H1 H2 Hr.
  rewrite paramsStr_join, parts_field_groups by assumption.
  unfold field_groups. rewrite (fixed_order_split f1 f2 Hr).
  rewrite filter_app. simpl filter. rewrite H1.
  rewrite filter_app. simpl filter. rewrite H2.
  rewrite map_app. simpl map. rewrite map_app. simpl map.
  destruct (concat_two ":" (map (group p) (filter (contributes p) (before f1)))
              (map (group p) (filter (contributes p) (between f1 f2)))
              (map (group p) (filter (contributes p) (after f2)))
              (group p f1) (group p f2)) as (a & b & c & E).
  exists a, b, (c ++ ";"). now rewrite E, !append_assoc.
Qed.

Lemma field_groups_in_fixed_order_witness :
  let p := Ts.mkParams (Some 2) (Some 3) (Some 1) (Some 2)
                       (Some Ts.Vbottom) (Some Ts.Hcenter) in
  Ts.textSizing_parts p
  = map (group p)
        (filter (contributes p)
                [Fscale; Fwidth; Ffraction; Fvertical; Fhorizontal]) /\
  Ts.textSizing_paramsStr p
  = String.concat ":" (Ts.textSizing_parts p) ++ ";" /\
  Ts.textSizing p "x"
  = ESC ++ "]66" ++ Ts.textSizing_paramsStr p ++ "x" ++ ESC ++ "\" /\
  (forall f1 f2 : Field,
      contributes p f1 = true -> contributes p f2 = true ->
      (rank f1 < rank f2)%nat ->
      exists a b c,
        Ts.textSizing_paramsStr p
        = a ++ group p f1 ++ b ++ group p f2 ++ c).
Proof.
  apply (field_groups_in_fixed_order
           (Ts.mkParams (Some 2) (Some 3) (Some 1) (Some 2)
                        (Some Ts.Vbottom) (Some Ts.Hcenter)) "x").
  unfold valid; repeat split; vm_compute; discriminate.
Defined.

(** The members of [parts] are groups whose test passed. *)
Lemma parts_member (p : Ts.TextSizingParams) (g : string) :
  In g (Ts.textSizing_parts p) <->
  exists f, pushed p f = true /\ g = group p f.
Proof.
  rewrite parts_pushed, in_map_iff. split.
  - intros (f & <- & Hf). apply filter_In in Hf as [_ Hf]. now exists f.
  - intros (f & Hf & ->). exists f. split; [reflexivity|].
    apply filter_In. split; [destruct f; simpl; auto 6 | exact Hf].
Qed.

End WireFormat.

(** ** The single-purpose encoders of [ansi.ts] *)

Section Simplified.

(** C10.  [fractionalText] writes the pair for every numerator and
    denominator; no test guards it, so it is written for a zero numerator
    and for a denominator that does not exceed the numerator as well. *)
Theorem fractionalText_unconditional (numerator denominator : Z)
        (text : string) :
  Ts.fractionalText numerator denominator text
  = ESC ++ "]66;" ++ ("n=" ++ decimal numerator ++ ":d=" ++ decimal denominator)
        ++ ";" ++ text ++ ESC ++ "\" /\
  includes (Ts.fractionalText numerator denominator text)
           ("n=" ++ decimal numerator ++ ":d=" ++ decimal denominator) = true /\
  Ts.fractionalText 0 0 "x" = ESC ++ "]66;n=0:d=0;x" ++ ESC ++ "\" /\
  Ts.fractionalText 3 2 "x" = ESC ++ "]66;n=3:d=2;x" ++ ESC ++ "\" /\
  Ts.textSizing (only_fraction 3 2) "x" = ESC ++ "]66;x" ++ ESC ++ "\".
Proof.
  split; [|split; [|repeat split]].
  - unfold Ts.fractionalText. now rewrite !append_assoc.
  - replace (Ts.fractionalText numerator denominator text)
      with ((ESC ++ "]66;")
            ++ ("n=" ++ decimal numerator ++ ":d=" ++ decimal denominator)
            ++ (";" ++ text ++ ESC ++ "\")).
    + apply includes_mid.
    + unfold Ts.fractionalText. now rewrite !append_assoc.
Qed.

(** Reading the fields of a parameter set given by its constructor. *)
Ltac read_fields :=
  cbn [scaleOf widthOf numeratorOf denominatorOf verticalOf horizontalOf
       only_scale only_width only_fraction scale_and_width
       Ts.scale Ts.width Ts.numerator Ts.denominator
       Ts.verticalAlign Ts.horizontalAlign
       vertical_code horizontal_code].

(** With its separator in place the general encoder would write what the
    single-purpose encoders write: each of them is ESC ] 66 ; followed by
    the parameter block, the text and the terminator. *)
Lemma scaledText_block (scale : Z) (text : string) :
  1 < scale ->
  Ts.scaledText scale text
  = ESC ++ "]66;" ++ Ts.textSizing_paramsStr (only_scale scale)
        ++ text ++ ESC ++ "\".
Proof.
  intros H. rewrite paramsStr_join, parts_pushed.
  unfold fixed_order, filter, pushed, contributes, group. read_fields.
  destruct (Z.ltb_spec 1 scale); [|lia]. simpl.
  unfold ESC, Ts.scaledText. now rewrite !append_assoc.
Qed.

Lemma explicitWidth_block (width : Z) (text : string) :
  0 < width ->
  Ts.explicitWidth width text
  = ESC ++ "]66;" ++ Ts.textSizing_paramsStr (only_width width)
        ++ text ++ ESC ++ "\".
Proof.
  intros H. rewrite paramsStr_join, parts_pushed.
  unfold fixed_order, filter, pushed, contributes, group. read_fields.
  destruct (Z.ltb_spec 0 width); [|lia]. simpl.
  unfold ESC, Ts.explicitWidth. now rewrite !append_assoc.
Qed.

Lemma fractionalText_block (numerator denominator : Z) (text : string) :
  0 < numerator < denominator ->
  Ts.fractionalText numerator denominator text
  = ESC ++ "]66;"
        ++ Ts.textSizing_paramsStr (only_fraction numerator denominator)
        ++ text ++ ESC ++ "\".
Proof.
  intros H. rewrite paramsStr_join, parts_pushed.
  unfold fixed_order, filter, pushed, contributes, group. read_fields.
  destruct (Z.eqb_spec numerator 0); [lia|].
  destruct (Z.eqb_spec denominator 0); [lia|].
  destruct (Z.ltb_spec numerator denominator); [|lia]. simpl.
  unfold ESC, Ts.fractionalText. now rewrite !append_assoc.
Qed.

Lemma textSizingWithWidth_block (scale width : Z) (text : string) :
  1 < scale -> 0 < width ->
  Ts.textSizingWithWidth scale width text
  = ESC ++ "]66;" ++ Ts.textSizing_paramsStr (scale_and_width scale width)
        ++ text ++ ESC ++ "\".
Proof.
  intros Hs Hw. rewrite paramsStr_join, parts_pushed.
  unfold fixed_order, filter, pushed, contributes, group. read_fields.
  destruct (Z.ltb_spec 1 scale); [|lia].
  destruct (Z.ltb_spec 0 width); [|lia]. simpl.
  unfold ESC, Ts.textSizingWithWidth. now rewrite !append_assoc.
Qed.

(** C2, evaluated.  Each single-purpose encoder writes a semicolon between
    the code 66 and the field group; [textSizing] with the same field set
    writes none, so the two outputs differ. *)
Theorem simplified_encoders_against_textSizing :
  Ts.scaledText 2 "Hello" = ESC ++ "]66;s=2;Hello" ++ ESC ++ "\" /\
  Ts.textSizing (only_scale 2) "Hello" = ESC ++ "]66s=2;Hello" ++ ESC ++ "\" /\
  Ts.fractionalText 1 2 "x" = ESC ++ "]66;n=1:d=2;x" ++ ESC ++ "\" /\
  Ts.textSizing (only_fraction 1 2) "x" = ESC ++ "]66n=1:d=2;x" ++ ESC ++ "\" /\
  Ts.explicitWidth 2 "x" = ESC ++ "]66;w=2;x" ++ ESC ++ "\" /\
  Ts.textSizing (only_width 2) "x" = ESC ++ "]66w=2;x" ++ ESC ++ "\" /\
  Ts.textSizingWithWidth 2 2 "x" = ESC ++ "]66;s=2:w=2;x" ++ ESC ++ "\" /\
  Ts.textSizing (scale_and_width 2 2) "x"
  = ESC ++ "]66s=2:w=2;x" ++ ESC ++ "\" /\
  Ts.scaledText 2 "Hello" <> Ts.textSizing (only_scale 2) "Hello".
Proof.
  repeat split. intros H. vm_compute in H. discriminate H.
Qed.

End Simplified.

(** ** Values outside the valid ranges *)

Section OutOfRange.



End OutOfRange.

(** ** [ansi.zig] against [ansi.ts] *)

Section ZigAgainstTs.

(** C7.  The two probe constants and the position report request are the
    byte strings of the specification; the probes are what the width
    encoder writes for width 1 and what the scale encoder writes for
    scale 2 on a single space. *)
Theorem probe_queries_bit_exact :
  Zig.explicitWidthQuery
  = bytes [27; 93; 54; 54; 59; 119; 61; 49; 59; 32; 27; 92]%nat /\
  Zig.scaledTextQuery
  = bytes [27; 93; 54; 54; 59; 115; 61; 50; 59; 32; 27; 92]%nat /\
  Zig.cursorPositionRequest = bytes [27; 91; 54; 110]%nat /\
  written_by (Zig.explicitWidthOutput 1 " ") = Some Zig.explicitWidthQuery /\
  written_by (Zig.scaledTextOutput 2 " ") = Some Zig.scaledTextQuery /\
  written_by (Zig.textSizingOutput (toZig (only_width 1)) " ")
  = Some Zig.explicitWidthQuery /\
  written_by (Zig.textSizingOutput (toZig (only_scale 2)) " ")
  = Some Zig.scaledTextQuery.
Proof. repeat split. Qed.

(** The first character of a field group is a key letter, never a
    semicolon. *)
Lemma group_not_semicolon (p : Ts.TextSizingParams) (f : Field)
      (a b : string) :
  group p f ++ a <> String ";" b.
Proof. destruct f; discriminate. Qed.

(** The two general encoders write the same bytes exactly when no field
    contributes; otherwise the Zig output has one more semicolon, after
    the code 66. *)
Lemma general_encoders_agree_iff (p : Ts.TextSizingParams) (text : string) :
  representable p ->
  (written_by (Zig.textSizingOutput (toZig p) text)
   = Some (Ts.textSizing p text)
   <-> field_groups p = []) /\
  (field_groups p <> [] ->
   written_by (Zig.textSizingOutput (toZig p) text)
   = Some (ESC ++ "]66;" ++ Ts.textSizing_paramsStr p ++ text ++ ESC ++ "\")).
Proof.
  intros (_ & _ & [Hn _] & _).
  rewrite textSizingOutput_bytes, textSizing_field_groups,
    paramsStr_join, parts_field_groups by assumption.
  unfold field_groups.
  destruct (filter (contributes p) fixed_order) as [|f fs] eqn:E.
  - split; [split; reflexivity | intros H; now destruct H].
  - split; [split; [|discriminate] | intros _].
    + intros H. exfalso. injection H as H. simpl map in H.
      destruct (map (group p) fs); simpl String.concat in H;
        rewrite ?append_assoc in H; symmetry in H;
        revert H; apply group_not_semicolon.
    + f_equal. unfold ESC. simpl map.
      repeat (rewrite ?append_assoc; cbn [append]). reflexivity.
Qed.

(** C9, evaluated.  For scale 2 and the text Hello the Zig encoder writes
    ESC]66;s=2;Hello ESC\ and the TypeScript encoder ESC]66s=2;Hello ESC\;
    with no field set both write ESC]66;hi ESC\. *)
Theorem general_encoders_differ :
  written_by (Zig.textSizingOutput (toZig (only_scale 2)) "Hello")
  = Some (ESC ++ "]66;s=2;Hello" ++ ESC ++ "\") /\
  Ts.textSizing (only_scale 2) "Hello" = ESC ++ "]66s=2;Hello" ++ ESC ++ "\" /\
  written_by (Zig.textSizingOutput (toZig (only_scale 2)) "Hello")
  <> Some (Ts.textSizing (only_scale 2) "Hello") /\
  written_by (Zig.textSizingOutput (toZig no_fields) "hi")
  = Some (Ts.textSizing no_fields "hi").
Proof.
  split; [reflexivity|]. split; [reflexivity|]. split; [|reflexivity].
  intros H. vm_compute in H. discriminate H.
Qed.

End ZigAgainstTs.

(** ** Computations over a writer *)

Section Writers.

Lemma length_append (a b : string) :
  String.length (a ++ b) = (String.length a + String.length b)%nat.
Proof.
  induction a as [|c a IH]; simpl; [reflexivity | now rewrite IH].
Qed.

Lemma writes_ret {A : Type} (x : A) : writes (Zig.ret x) EmptyString x.
Proof.
  intros [buf [n|]]; unfold Zig.ret, Zig.writeAll; simpl.
  - now rewrite append_empty_r, Nat.sub_0_r.
  - now rewrite append_empty_r.
Qed.

Lemma writes_writeAll (a : string) : writes (Zig.writeAll a) a tt.
Proof.
  intros w. destruct (Zig.writeAll a w) as [e|[[] w']]; reflexivity.
Qed.

Lemma writes_bind {A B : Type} (m : Zig.M A) (k : A -> Zig.M B)
      (a b : string) (x : A) (y : B) :
  writes m a x -> writes (k x) b y -> writes (Zig.bind m k) (a ++ b) y.
Proof.
  intros Hm Hk [buf [n|]]; unfold Zig.bind; rewrite Hm;
    unfold Zig.writeAll; simpl.
  - rewrite length_append.
    destruct (Nat.leb_spec (String.length a) n) as [La|La].
    + rewrite Hk. unfold Zig.writeAll. simpl.
      destruct (Nat.leb_spec (String.length b) (n - String.length a)),
               (Nat.leb_spec (String.length a + String.length b) n);
        try lia; [|reflexivity].
      rewrite append_assoc.
      replace (n - String.length a - String.length b)%nat
        with (n - (String.length a + String.length b))%nat by lia.
      reflexivity.
    + destruct (Nat.leb_spec (String.length a + String.length b) n);
        [lia | reflexivity].
  - rewrite Hk. unfold Zig.writeAll. simpl. now rewrite append_assoc.
Qed.

Lemma writes_run (m : Zig.M unit) (a : string) :
  writes m a tt -> forall w, m w = Zig.writeAll a w.
Proof.
  intros H w. rewrite H.
  destruct (Zig.writeAll a w) as [e|[[] w']]; reflexivity.
Qed.

Lemma writes_ext {A : Type} (m : Zig.M A) (a b : string) (x : A) :
  a = b -> writes m a x -> writes m b x.
Proof. now intros ->. Qed.

Lemma writes_when (c : bool) (s : string) :
  writes (Zig.when c (Zig.writeAll s)) (if c then s else EmptyString) tt.
Proof. destruct c; [apply writes_writeAll | apply writes_ret]. Qed.

(** Two writes in a row are one write of the two strings. *)
Lemma writeAll_app (a b : string) (w : Zig.Writer) :
  Zig.bind (Zig.writeAll a) (fun _ => Zig.writeAll b) w
  = Zig.writeAll (a ++ b) w.
Proof.
  apply writes_run.
  apply (writes_bind _ _ a b tt tt); apply writes_writeAll.
Qed.

End Writers.

(** Collecting what a chain of writes puts out. *)
Ltac collect_writes :=
  cbv beta; cbn [Zig.separator Zig.writeByte];
  first [ apply writes_writeAll
        | apply writes_ret
        | apply writes_when
        | eapply writes_bind; [collect_writes | collect_writes] ].

Ltac flatten_strings :=
  unfold ESC; repeat (rewrite ?append_assoc, ?append_empty_r; cbn [append]).

Section ZigEncoders.

Lemma toZig_fromZig (zp : Zig.TextSizingParams) : toZig (fromZig zp) = zp.
Proof.
  destruct zp as [s w n d [] []]; reflexivity.
Qed.

(** X1.  On every sink [textSizingOutput] behaves as a single write of the
    whole sequence: it stops with [WriteFailed] exactly when the sink has
    less room than the sequence is long, and otherwise appends the whole
    sequence to what the sink held. *)
Theorem textSizingOutput_single_write (zp : Zig.TextSizingParams)
        (text : string) (w : Zig.Writer) :
  Zig.textSizingOutput zp text w
  = Zig.writeAll (sizing_sequence zp text) w.
Proof.
  apply writes_run. unfold sizing_sequence.
  rewrite <- (toZig_fromZig zp) at 1.
  destruct (zig_tests (fromZig zp)) as (Hs & Hw & Hf & Hv & Hh & Cv & Ch).
  unfold Zig.textSizingOutput.
  rewrite Hs, Hw, Hf, Hv, Hh, Cv, Ch.
  unfold field_groups, fixed_order, filter, Zig.fmt_d.
  destruct (contributes (fromZig zp) Fscale),
           (contributes (fromZig zp) Fwidth),
           (contributes (fromZig zp) Ffraction),
           (contributes (fromZig zp) Fvertical),
           (contributes (fromZig zp) Fhorizontal);
    (eapply writes_ext; [|collect_writes]);
    cbn [map group String.concat toZig Zig.scale Zig.width Zig.numerator
             Zig.denominator];
    flatten_strings; reflexivity.
Qed.

Lemma written_by_writeAll (a : string) :
  written_by (Zig.writeAll a) = Some a.
Proof. reflexivity. Qed.

Lemma written_by_textSizingOutput (zp : Zig.TextSizingParams)
      (text : string) :
  written_by (Zig.textSizingOutput zp text) = Some (sizing_sequence zp text).
Proof.
  unfold written_by. now rewrite textSizingOutput_single_write.
Qed.

(** Comparing a single-purpose encoder with the general one: the tests of
    the general encoder are decided, the two byte strings are laid out
    flat, and they are equal or of different lengths. *)
Ltac decide_tests :=
  unfold sizing_sequence, field_groups, fixed_order, filter, contributes,
    group;
  cbn [fromZig fromZigVertical fromZigHorizontal scaleOf widthOf numeratorOf
       denominatorOf verticalOf horizontalOf vertical_code horizontal_code
       Ts.scale Ts.width Ts.numerator Ts.denominator Ts.verticalAlign
       Ts.horizontalAlign Zig.scale Zig.width Zig.numerator Zig.denominator
       Zig.vertical_align Zig.horizontal_align];
  repeat match goal with
         | |- context [?a <? ?b] => destruct (Z.ltb_spec a b); try lia
         end;
  cbn [andb negb Z.eqb map String.concat].

Ltac same_or_longer :=
  split;
  [ intros Hall; specialize (Hall growing_sink);
    rewrite textSizingOutput_single_write in Hall;
    cbv [Zig.scaledTextOutput Zig.explicitWidthOutput
         Zig.fractionalTextOutput Zig.textSizingWithWidthOutput
         Zig.fmt_d] in Hall;
    revert Hall; decide_tests; intros Hall; try lia;
    exfalso; try discriminate Hall; injection Hall as Hall;
    apply (f_equal String.length) in Hall; revert Hall;
    unfold ESC; repeat (rewrite ?length_append; cbn [String.length]);
    lia
  | intros Hpos w; rewrite textSizingOutput_single_write;
    cbv [Zig.scaledTextOutput Zig.explicitWidthOutput
         Zig.fractionalTextOutput Zig.textSizingWithWidthOutput Zig.fmt_d];
    f_equal; decide_tests; flatten_strings; reflexivity ].

(** X2.  [scaledTextOutput] and [textSizingOutput] with the scale alone
    set behave alike on every sink exactly when the scale exceeds 1; for
    scale 0 and 1 the former writes [s=0], [s=1] and the latter no
    field. *)
Theorem scaledTextOutput_as_general (scale : Z) (text : string) :
  (forall w : Zig.Writer,
      Zig.scaledTextOutput scale text w
      = Zig.textSizingOutput
          (Zig.mkParams scale 0 0 0 Zig.top Zig.h_left) text w)
  <-> 1 < scale.
Proof. same_or_longer. Qed.

(** X3.  [explicitWidthOutput] and [textSizingOutput] with the width alone
    set behave alike on every sink exactly when the width exceeds 0. *)
Theorem explicitWidthOutput_as_general (width : Z) (text : string) :
  (forall w : Zig.Writer,
      Zig.explicitWidthOutput width text w
      = Zig.textSizingOutput
          (Zig.mkParams 1 width 0 0 Zig.top Zig.h_left) text w)
  <-> 0 < width.
Proof. same_or_longer. Qed.

(** X4.  [fractionalTextOutput] and [textSizingOutput] with the pair alone
    set behave alike on every sink exactly when the numerator is positive
    and below the denominator. *)
Theorem fractionalTextOutput_as_general (numerator denominator : Z)
        (text : string) :
  (forall w : Zig.Writer,
      Zig.fractionalTextOutput numerator denominator text w
      = Zig.textSizingOutput
          (Zig.mkParams 1 0 numerator denominator Zig.top Zig.h_left) text w)
  <-> 0 < numerator < denominator.
Proof. same_or_longer. Qed.

(** X5.  [textSizingWithWidthOutput] and [textSizingOutput] with scale and
    width set behave alike on every sink exactly when the scale exceeds 1
    and the width exceeds 0. *)
Theorem textSizingWithWidthOutput_as_general (scale width : Z)
        (text : string) :
  (forall w : Zig.Writer,
      Zig.textSizingWithWidthOutput scale width text w
      = Zig.textSizingOutput
          (Zig.mkParams scale width 0 0 Zig.top Zig.h_left) text w)
  <-> 1 < scale /\ 0 < width.
Proof. same_or_longer. Qed.

(** X6.  When some field contributes, [textSizingOutput] writes what it
    writes for the all-default parameter set and the text made of the
    joined field groups, a semicolon and the original text: with no field
    the sequence has a single semicolon, so a payload of that form reads
    as a parameter block. *)
Theorem default_payload_reads_as_block (zp : Zig.TextSizingParams)
        (text : string) :
  field_groups (fromZig zp) <> [] ->
  forall w : Zig.Writer,
    Zig.textSizingOutput zp text w
    = Zig.textSizingOutput Zig.default
        (String.concat ":" (field_groups (fromZig zp)) ++ ";" ++ text) w.
Proof.
  intros H w. rewrite !textSizingOutput_single_write. f_equal.
  unfold sizing_sequence.
  change (field_groups (fromZig Zig.default)) with (@nil string).
  destruct (field_groups (fromZig zp)); [contradiction|].
  flatten_strings. reflexivity.
Qed.

Lemma default_payload_reads_as_block_witness :
  Zig.textSizingOutput (Zig.mkParams 2 0 0 0 Zig.top Zig.h_left) "x"
                       growing_sink
  = Zig.textSizingOutput Zig.default
      (String.concat ":"
         (field_groups
            (fromZig (Zig.mkParams 2 0 0 0 Zig.top Zig.h_left)))
       ++ ";" ++ "x") growing_sink.
Proof.
  apply (default_payload_reads_as_block
           (Zig.mkParams 2 0 0 0 Zig.top Zig.h_left) "x").
  vm_compute. discriminate.
Defined.

End ZigEncoders.

(** ** Text attributes and room for the renderer *)

Section Attributes.

Lemma land_flag (a i : Z) :
  0 <= i -> (Z.land a (Z.shiftl 1 i) =? 0) = negb (Z.testbit a i).
Proof.
  intros Hi. rewrite Z.shiftl_1_l.
  destruct (Z.testbit a i) eqn:E; simpl.
  - apply Z.eqb_neq. intros H.
    assert (B : Z.testbit (Z.land a (2 ^ i)) i = true).
    { rewrite Z.land_spec, E, Z.pow2_bits_eqb, Z.eqb_refl by lia.
      reflexivity. }
    rewrite H, Z.bits_0 in B. discriminate.
  - apply Z.eqb_eq, Z.bits_inj'. intros n Hn.
    rewrite Z.land_spec, Z.bits_0, Z.pow2_bits_eqb by lia.
    destruct (Z.eqb_spec i n) as [<-|]; [now rewrite E | apply andb_false_r].
Qed.

Lemma u8_cases (f : Z -> bool) :
  forallb f u8_values = true -> forall z, is_u8 z -> f z = true.
Proof.
  intros H z [Hl Hu]. rewrite forallb_forall in H. apply H.
  unfold u8_values. apply in_map_iff. exists (Z.to_nat z).
  split; [lia | apply in_seq; lia].
Qed.

(** On every sink [applyAttributesOutputWriter] behaves as one write of
    the sequences of the flags that are set. *)
Lemma applyAttributes_single_write (attributes : Z) (w : Zig.Writer) :
  Zig.applyAttributesOutputWriter attributes w
  = Zig.writeAll (attribute_bytes attributes) w.
Proof.
  apply writes_run. unfold Zig.applyAttributesOutputWriter.
  unfold Zig.BOLD, Zig.DIM, Zig.ITALIC, Zig.UNDERLINE, Zig.BLINK,
    Zig.INVERSE, Zig.HIDDEN, Zig.STRIKETHROUGH.
  rewrite !land_flag, !negb_involutive by lia.
  eapply writes_ext; [|collect_writes].
  unfold attribute_bytes, attribute_table, filter. cbn [fst snd].
  destruct (Z.testbit attributes 0), (Z.testbit attributes 1),
           (Z.testbit attributes 2), (Z.testbit attributes 3),
           (Z.testbit attributes 4), (Z.testbit attributes 5),
           (Z.testbit attributes 6), (Z.testbit attributes 7);
    reflexivity.
Qed.

(** X7.  For every [u8] value [applyAttributesOutputWriter] behaves as one
    write of four bytes per flag set, and the sequence of an attribute
    occurs in these bytes exactly when its flag is set. *)
Theorem applyAttributes_flags (attributes : Z) :
  is_u8 attributes ->
  (forall w : Zig.Writer,
      Zig.applyAttributesOutputWriter attributes w
      = Zig.writeAll (attribute_bytes attributes) w) /\
  String.length (attribute_bytes attributes) = (4 * popcount attributes)%nat /\
  (forall (i : Z) (sequence : string),
      In (i, sequence) attribute_table ->
      includes (attribute_bytes attributes) sequence
      = Z.testbit attributes i).
Proof.
  intros H. split; [apply applyAttributes_single_write|].
  pose proof (u8_cases
    (fun a =>
       Nat.eqb (String.length (attribute_bytes a)) (4 * popcount a)
       && forallb (fun e => Bool.eqb (includes (attribute_bytes a) (snd e))
                                     (Z.testbit a (fst e)))
                  attribute_table)) as K.
  specialize (K ltac:(vm_compute; reflexivity) attributes H).
  cbv beta in K. apply andb_true_iff in K as [K1 K2]. split.
  - now apply Nat.eqb_eq.
  - intros i sequence Hin. rewrite forallb_forall in K2.
    specialize (K2 _ Hin). now apply Bool.eqb_prop in K2.
Qed.

Lemma applyAttributes_flags_witness :
  (forall w : Zig.Writer,
      Zig.applyAttributesOutputWriter 5 w
      = Zig.writeAll (attribute_bytes 5) w) /\
  String.length (attribute_bytes 5) = (4 * popcount 5)%nat /\
  (forall (i : Z) (sequence : string),
      In (i, sequence) attribute_table ->
      includes (attribute_bytes 5) sequence = Z.testbit 5 i).
Proof.
  apply (applyAttributes_flags 5). unfold is_u8. lia.
Defined.





End Attributes.

(** ** Cursor and colour sequences *)

Section CursorAndColour.

Lemma uint_numeral (u : uint) (c : ascii) :
  In c (chars (NilEmpty.string_of_uint u)) -> numeral c = true.
Proof.
  induction u; simpl; try (intros []; fail);
    (intros [<-|H]; [reflexivity | now apply IHu]).
Qed.

Lemma decimal_numeral (z : Z) (c : ascii) :
  In c (chars (decimal z)) -> numeral c = true.
Proof.
  unfold decimal, NilZero.string_of_int, NilZero.string_of_uint.
  destruct (Z.to_int z) as [u|u].
  - destruct u; try apply uint_numeral. simpl. now intros [<-|[]].
  - intros [<-|H]; [reflexivity|]. revert H.
    destruct u; try apply uint_numeral. simpl. now intros [<-|[]].
Qed.

(** Two strings of characters of one kind, each followed by a character
    of another kind, are equal only part by part. *)
Lemma split_at_first (kind : ascii -> bool) (a a' r r' : string)
      (c c' : ascii) :
  (forall x, In x (chars a) -> kind x = true) ->
  (forall x, In x (chars a') -> kind x = true) ->
  kind c = false -> kind c' = false ->
  a ++ String c r = a' ++ String c' r' ->
  a = a' /\ c = c' /\ r = r'.
Proof.
  revert a'. induction a as [|x a IH]; intros [|y a'] Ha Ha' Hc Hc' E;
    simpl in E; injection E as E1 E2.
  - now subst.
  - subst y. rewrite (Ha' c) in Hc by now left. discriminate.
  - subst x. rewrite (Ha c') in Hc' by now left. discriminate.
  - subst y. destruct (IH a') as (-> & -> & ->); auto.
    + intros z Hz. apply Ha. now right.
    + intros z Hz. apply Ha'. now right.
Qed.

Lemma split_at_mark (a a' r r' : string) (c c' : ascii) :
  (forall x, In x (chars a) -> numeral x = true) ->
  (forall x, In x (chars a') -> numeral x = true) ->
  numeral c = false -> numeral c' = false ->
  a ++ String c r = a' ++ String c' r' ->
  a = a' /\ c = c' /\ r = r'.
Proof. apply split_at_first. Qed.

Lemma decimal_mark (a b : Z) (c c' : ascii) (r r' : string) :
  numeral c = false -> numeral c' = false ->
  decimal a ++ String c r = decimal b ++ String c' r' ->
  a = b /\ c = c' /\ r = r'.
Proof.
  intros Hc Hc' E.
  destruct (split_at_mark _ _ _ _ _ _ (decimal_numeral a)
              (decimal_numeral b) Hc Hc' E) as (Ed & -> & ->).
  split; [now apply decimal_inj | now split].
Qed.

Ltac peel H :=
  apply decimal_mark in H; [|reflexivity|reflexivity];
  destruct H as (? & _ & H); subst.

(** X9.  [moveToOutput(x, y)] writes the row [y] before the column [x]:
    its bytes are those of [moveCursor(row, col)] of [ansi.ts] exactly
    when [row = y] and [col = x]. *)
Theorem moveToOutput_row_first (x y row col : Z) :
  written_by (Zig.moveToOutput x y) = Some (Ts.moveCursor row col)
  <-> row = y /\ col = x.
Proof.
  split.
  - intros H. cbv [written_by growing_sink Zig.moveToOutput Zig.writeAll
                   Zig.room Zig.written Zig.fmt_d Ts.moveCursor] in H.
    simpl in H. injection H as H. symmetry in H. peel H.
    apply decimal_mark in H; [|reflexivity|reflexivity]. now destruct H.
  - intros [-> ->]. reflexivity.
Qed.

(** X10.  [bgColorOutput] writes the bytes of [setRgbBackground] of
    [ansi.ts] for the same colour and for no other, and [fgColorOutput]
    never writes the bytes of a background colour. *)
Theorem colour_sequences (r g b r' g' b' : Z) :
  (written_by (Zig.bgColorOutput r g b) = Some (Ts.setRgbBackground r' g' b')
   <-> r = r' /\ g = g' /\ b = b') /\
  written_by (Zig.fgColorOutput r g b) <> Some (Ts.setRgbBackground r' g' b').
Proof.
  split; [split|].
  - intros H. cbv [written_by growing_sink Zig.bgColorOutput Zig.writeAll
                   Zig.room Zig.written Zig.fmt_d Ts.setRgbBackground] in H.
    simpl in H. injection H as H. peel H. peel H.
    apply decimal_mark in H; [|reflexivity|reflexivity]. now destruct H.
  - intros (-> & -> & ->). reflexivity.
  - intros H. cbv [written_by growing_sink Zig.fgColorOutput Zig.writeAll
                   Zig.room Zig.written Zig.fmt_d Ts.setRgbBackground] in H.
    simpl in H. discriminate H.
Qed.

(** X11.  In [ansi.ts], [moveCursorAndClear] is [moveCursor] followed by
    the erase sequence, a position sequence determines its row and column,
    a scroll sequence determines its line count, and scrolling up is never
    scrolling down. *)
Theorem cursor_sequences (row col row' col' n m : Z) :
  Ts.moveCursorAndClear row col
  = Ts.moveCursor row col ++ Zig.eraseBelowCursor /\
  (Ts.moveCursor row col = Ts.moveCursor row' col'
   <-> row = row' /\ col = col') /\
  (Ts.scrollUp n = Ts.scrollUp m <-> n = m) /\
  (Ts.scrollDown n = Ts.scrollDown m <-> n = m) /\
  Ts.scrollUp n <> Ts.scrollDown m.
Proof.
  split; [|split; [split|split; [split|split; [split|]]]].
  - unfold Ts.moveCursorAndClear, Ts.moveCursor, Zig.eraseBelowCursor.
    flatten_strings. reflexivity.
  - intros H. simpl in H. injection H as H. peel H.
    apply decimal_mark in H; [|reflexivity|reflexivity]. now destruct H.
  - intros [-> ->]. reflexivity.
  - intros H. simpl in H. injection H as H.
    apply decimal_mark in H; [|reflexivity|reflexivity]. now destruct H.
  - now intros ->.
  - intros H. simpl in H. injection H as H.
    apply decimal_mark in H; [|reflexivity|reflexivity]. now destruct H.
  - now intros ->.
  - intros H. simpl in H. injection H as H.
    apply decimal_mark in H; [|reflexivity|reflexivity].
    destruct H as (_ & H & _). discriminate H.
Qed.

(** Two hexadecimal digits are written for every [u8], and they read back
    as the value. *)
Lemma fmt_x02_reads_back (z : Z) (rest : string) :
  is_u8 z ->
  String.length (Zig.fmt_x02 z) = 2%nat /\
  read_hex2 (Zig.fmt_x02 z ++ rest) = Some (z, rest).
Proof.
  intros H.
  pose proof (u8_cases
    (fun a =>
       match Zig.fmt_x02 a with
       | String c1 (String c2 EmptyString) =>
           match hex_digit_value c1, hex_digit_value c2 with
           | Some h, Some l => 16 * h + l =? a
           | _, _ => false
           end
       | _ => false
       end)) as K.
  specialize (K ltac:(vm_compute; reflexivity) z H). cbv beta in K.
  destruct (Zig.fmt_x02 z) as [|c1 [|c2 [|c3 s]]]; try discriminate K.
  split; [reflexivity|]. unfold read_hex2. cbn [append].
  destruct (hex_digit_value c1), (hex_digit_value c2); try discriminate K.
  apply Z.eqb_eq in K. now rewrite K.
Qed.

(** X12.  For [u8] components [cursorColorOutputWriter] writes thirteen
    bytes, and reading the six hexadecimal digits back gives the colour
    it was called with. *)
Theorem cursorColor_reads_back (r g b : Z) :
  is_u8 r -> is_u8 g -> is_u8 b ->
  exists out : string,
    written_by (Zig.cursorColorOutputWriter r g b) = Some out /\
    String.length out = 13%nat /\
    read_cursor_color out = Some (r, g, b).
Proof.
  intros Hr Hg Hb. eexists. split; [reflexivity|].
  destruct (fmt_x02_reads_back r (Zig.fmt_x02 g ++ Zig.fmt_x02 b ++ Zig.BEL) Hr)
    as [Lr Rr].
  destruct (fmt_x02_reads_back g (Zig.fmt_x02 b ++ Zig.BEL) Hg) as [Lg Rg].
  destruct (fmt_x02_reads_back b Zig.BEL Hb) as [Lb Rb].
  split.
  - unfold ESC. simpl. rewrite !length_append, Lr, Lg, Lb. reflexivity.
  - unfold ESC. simpl. rewrite Rr, Rg, Rb. reflexivity.
Qed.

Lemma cursorColor_reads_back_witness :
  exists out : string,
    written_by (Zig.cursorColorOutputWriter 255 0 10) = Some out /\
    String.length out = 13%nat /\
    read_cursor_color out = Some (255, 0, 10).
Proof.
  apply (cursorColor_reads_back 255 0 10); unfold is_u8; lia.
Defined.

End CursorAndColour.

(** ** More on [textSizing] of [ansi.ts] *)

Section TextSizingMore.

(** X13.  [textSizing] reads a missing field as its default, a scale
    below 1 as 1 and a width below 0 as 0: the output is the one of the
    parameter set with every field written out that way. *)
Theorem textSizing_normalise (p : Ts.TextSizingParams) (text : string) :
  Ts.textSizing p text = Ts.textSizing (normalise p) text.
Proof.
  unfold Ts.textSizing, Ts.textSizing_paramsStr.
  assert (E : Ts.textSizing_parts (normalise p) = Ts.textSizing_parts p).
  { rewrite !parts_pushed.
    unfold fixed_order, filter, pushed, contributes, group.
    cbn [normalise scaleOf widthOf numeratorOf denominatorOf verticalOf
         horizontalOf Ts.scale Ts.width Ts.numerator Ts.denominator
         Ts.verticalAlign Ts.horizontalAlign].
    destruct (Z.ltb_spec 1 (scaleOf p)), (Z.ltb_spec 1 (Z.max 1 (scaleOf p)));
      try lia;
    destruct (Z.ltb_spec 0 (widthOf p)), (Z.ltb_spec 0 (Z.max 0 (widthOf p)));
      try lia;
    repeat match goal with
           | |- context [if ?c then _ else _] => destruct c
           end;
    cbn [map];
    rewrite ?(Z.max_r 1 (scaleOf p)), ?(Z.max_r 0 (widthOf p)) by lia;
    reflexivity. }
  now rewrite E.
Qed.

Lemma group_alphabet (p : Ts.TextSizingParams) (f : Field) (c : ascii) :
  In c (chars (group p f)) ->
  In c (keys f) \/ numeral c = true \/ c = "="%char \/ c = ":"%char.
Proof.
  destruct f; unfold group; rewrite !chars_app, !in_app_iff; simpl;
    intuition (subst; auto);
    right; left; eapply decimal_numeral; eassumption.
Qed.

Lemma body_alphabet (p : Ts.TextSizingParams) (c : ascii) :
  In c (chars (String.concat ":" (Ts.textSizing_parts p))) ->
  In c (chars "0123456789-=:swndvh").
Proof.
  intros H. apply concat_chars in H as [[<-|[]]|[g [Hg Hc]]].
  - simpl; auto 20.
  - apply parts_member in Hg as (f & _ & ->).
    apply group_alphabet in Hc as [Hc|[Hc|[->| ->]]].
    + destruct f; simpl in Hc; intuition (subst; simpl; auto 20).
    + unfold numeral in Hc. apply existsb_exists in Hc as (x & Hx & E).
      apply Ascii.eqb_eq in E. subst x. simpl in Hx. simpl.
      intuition auto 20.
    + simpl; auto 20.
    + simpl; auto 20.
Qed.

(** X14.  For parameter sets whose numbers are integers below 1e21 in
    magnitude, which a template literal renders in plain decimal digits,
    the parameter block of [textSizing] is made of digits, the sign, [=],
    [:], the key letters and one semicolon, its last character; so the
    output determines both the block and the text. *)
Theorem parameter_block_alphabet (p q : Ts.TextSizingParams)
        (text text' : string) :
  plain p -> plain q ->
  (exists body : string,
      Ts.textSizing_paramsStr p = body ++ ";" /\
      forall c, In c (chars body) -> In c (chars "0123456789-=:swndvh")) /\
  (Ts.textSizing p text = Ts.textSizing q text'
   <-> Ts.textSizing_paramsStr p = Ts.textSizing_paramsStr q
       /\ text = text').
Proof.
  intros _ _. split.
  - exists (String.concat ":" (Ts.textSizing_parts p)).
    split; [apply paramsStr_join | apply body_alphabet].
  - split; [|intros [E ->]; unfold Ts.textSizing; now rewrite E].
    unfold Ts.textSizing. rewrite !paramsStr_join. intros H.
    apply append_inv_head in H. simpl in H. injection H as H.
    rewrite !append_assoc in H. simpl in H.
    apply (split_at_first
             (fun c => existsb (Ascii.eqb c) (chars "0123456789-=:swndvh")))
      in H; try reflexivity.
    + destruct H as (-> & _ & H). split; [reflexivity|].
      now apply append_inv_tail in H.
    + intros x Hx. apply existsb_exists. exists x.
      split; [now apply (body_alphabet p) | apply Ascii.eqb_refl].
    + intros x Hx. apply existsb_exists. exists x.
      split; [now apply (body_alphabet q) | apply Ascii.eqb_refl].
Qed.

Lemma parameter_block_alphabet_witness :
  (exists body : string,
      Ts.textSizing_paramsStr (only_scale 2) = body ++ ";" /\
      forall c, In c (chars body) -> In c (chars "0123456789-=:swndvh")) /\
  (Ts.textSizing (only_scale 2) "x" = Ts.textSizing (only_width 3) "y"
   <-> Ts.textSizing_paramsStr (only_scale 2)
       = Ts.textSizing_paramsStr (only_width 3)
       /\ "x" = "y").
Proof.
  apply (parameter_block_alphabet (only_scale 2) (only_width 3) "x" "y");
    unfold plain, plain_number; repeat split; vm_compute; reflexivity.
Defined.

(** X15.  For all integers, also outside the valid ranges, [textSizing]
    writes the pair exactly when numerator and denominator are both
    non-zero and the denominator is the larger: a negative numerator
    passes the test. *)
Theorem pair_written_iff (p : Ts.TextSizingParams) :
  includes (Ts.textSizing_paramsStr p)
           ("n=" ++ decimal (numeratorOf p)
            ++ ":d=" ++ decimal (denominatorOf p)) = true
  <-> numeratorOf p <> 0 /\ denominatorOf p <> 0
      /\ numeratorOf p < denominatorOf p.
Proof.
  change ("n=" ++ decimal (numeratorOf p) ++ ":d=" ++ decimal (denominatorOf p))
    with (group p Ffraction).
  rewrite group_occurs_iff. simpl.
  destruct (Z.eqb_spec (numeratorOf p) 0), (Z.eqb_spec (denominatorOf p) 0),
           (Z.ltb_spec (numeratorOf p) (denominatorOf p)); simpl;
    split; intros; try discriminate; try lia; auto.
Qed.

End TextSizingMore.

(** ** The two general encoders on every sink *)

Section BothEncoders.

(** X16.  For a parameter set that fits the [u8] fields, [textSizingOutput]
    behaves on every sink as one write of the bytes of [textSizing] of
    [ansi.ts] with a semicolon put after the code 66 when some field
    contributes, and of those bytes unchanged when none does. *)
Theorem textSizingOutput_against_textSizing (p : Ts.TextSizingParams)
        (text : string) :
  representable p ->
  forall w : Zig.Writer,
    Zig.textSizingOutput (toZig p) text w
    = Zig.writeAll
        (ESC ++ "]66"
             ++ match Ts.textSizing_parts p with
                | [] => EmptyString
                | _ => ";"
                end
             ++ Ts.textSizing_paramsStr p ++ text ++ ESC ++ "\") w.
Proof.
  intros (_ & _ & [Hn _] & _) w.
  rewrite textSizingOutput_single_write. f_equal.
  unfold sizing_sequence.
  replace (field_groups (fromZig (toZig p))) with (field_groups p).
  - rewrite paramsStr_join, parts_field_groups by assumption.
    destruct (field_groups p); flatten_strings; reflexivity.
  - unfold field_groups, fixed_order, filter, contributes, group.
    cbn [fromZig toZig scaleOf widthOf numeratorOf denominatorOf verticalOf
         horizontalOf Ts.scale Ts.width Ts.numerator Ts.denominator
         Ts.verticalAlign Ts.horizontalAlign Zig.scale Zig.width
         Zig.numerator Zig.denominator Zig.vertical_align
         Zig.horizontal_align].
    destruct (verticalOf p), (horizontalOf p); reflexivity.
Qed.

Lemma textSizingOutput_against_textSizing_witness :
  Zig.textSizingOutput (toZig (only_scale 2)) "Hello" growing_sink
  = Zig.writeAll
      (ESC ++ "]66"
           ++ match Ts.textSizing_parts (only_scale 2) with
              | [] => EmptyString
              | _ => ";"
              end
           ++ Ts.textSizing_paramsStr (only_scale 2) ++ "Hello"
           ++ ESC ++ "\") growing_sink.
Proof.
  apply (textSizingOutput_against_textSizing (only_scale 2) "Hello").
  unfold representable, is_u8.
  repeat split; vm_compute; try reflexivity; discriminate.
Defined.

End BothEncoders.

(** ** The single-purpose encoders of both files *)

Section SinglePurpose.

Ltac open_sequences H :=
  cbv [written_by growing_sink Zig.writeAll Zig.room Zig.written Zig.fmt_d
       Zig.scaledTextOutput Zig.explicitWidthOutput Zig.fractionalTextOutput
       Zig.textSizingWithWidthOutput Ts.scaledText Ts.explicitWidth
       Ts.fractionalText Ts.textSizingWithWidth] in H;
  simpl in H; injection H as H.

Ltac next_number H :=
  apply decimal_mark in H; [|reflexivity|reflexivity];
  destruct H as (? & _ & H); subst.

(** X17.  Each single-purpose encoder of [ansi.zig] writes the bytes of
    its counterpart in [ansi.ts] for the same numbers and text, and for no
    others: the sequence determines the numbers and the text. *)
Theorem single_purpose_sequences (s w n d s' w' n' d' : Z)
        (text text' : string) :
  (written_by (Zig.scaledTextOutput s text) = Some (Ts.scaledText s' text')
   <-> s = s' /\ text = text') /\
  (written_by (Zig.explicitWidthOutput w text)
   = Some (Ts.explicitWidth w' text')
   <-> w = w' /\ text = text') /\
  (written_by (Zig.fractionalTextOutput n d text)
   = Some (Ts.fractionalText n' d' text')
   <-> n = n' /\ d = d' /\ text = text') /\
  (written_by (Zig.textSizingWithWidthOutput s w text)
   = Some (Ts.textSizingWithWidth s' w' text')
   <-> s = s' /\ w = w' /\ text = text').
Proof.
  split; [|split; [|split]];
    (split; [intros H; open_sequences H
            | intuition (subst; reflexivity)]).
  - next_number H. split; [reflexivity|].
    now apply append_inv_tail in H.
  - next_number H. split; [reflexivity|].
    now apply append_inv_tail in H.
  - next_number H. simpl in H. injection H as H. next_number H.
    repeat split. now apply append_inv_tail in H.
  - next_number H. simpl in H. injection H as H. next_number H.
    repeat split. now apply append_inv_tail in H.
Qed.

End SinglePurpose.

(** ** What the parameter block holds *)

Section BlockContents.

(** A pattern cannot begin inside a stretch that lacks its first
    character. *)
Lemma includes_skip (a b pat' : string) (c : ascii) :
  ~ In c (chars a) ->
  includes (a ++ b) (String c pat') = includes b (String c pat').
Proof.
  induction a as [|x a IH]; intros H; [reflexivity|].
  change (String x a ++ b) with (String x (a ++ b)).
  rewrite includes_unfold. simpl String.prefix.
  destruct (ascii_dec c x) as [->|_].
  - exfalso. apply H. now left.
  - simpl. apply IH. intros K. apply H. now right.
Qed.

(** Where the first character of the pattern occurs once only, at the
    head, the pattern occurs exactly when it is a prefix. *)
Lemma includes_head_only (g' b pat' : string) (c : ascii) :
  ~ In c (chars (g' ++ b)) ->
  includes (String c g' ++ b) (String c pat') = String.prefix pat' (g' ++ b).
Proof.
  intros H. change (String c g' ++ b) with (String c (g' ++ b)).
  rewrite includes_unfold. simpl String.prefix.
  destruct (ascii_dec c c) as [_|N]; [|congruence].
  rewrite (includes_absent (g' ++ b) (String c pat') c); [|now left|exact H].
  apply orb_false_r.
Qed.

Lemma prefix_of_prefix (a b s : string) :
  String.prefix (a ++ b) s = true -> String.prefix a s = true.
Proof.
  revert s. induction a as [|x a IH]; intros s H; [now destruct s|].
  destruct s as [|y s]; simpl in *; [discriminate|].
  destruct (ascii_dec x y); [now apply IH | discriminate].
Qed.

Lemma includes_prefix_of (s a b : string) :
  includes s (a ++ b) = true -> includes s a = true.
Proof.
  induction s as [|x s IH]; intros H;
    rewrite includes_unfold in H; rewrite includes_unfold.
  - rewrite orb_false_r in *. now apply prefix_of_prefix in H.
  - apply orb_true_iff in H as [H|H]; apply orb_true_iff.
    + left. now apply prefix_of_prefix in H.
    + right. now apply IH.
Qed.

(** The join of a list around one of its members: what stands before it
    comes from the separator and the earlier members, what stands after
    it from the separator and the later ones. *)
Lemma concat_around (sep g : string) (l1 l2 : list string) :
  exists a b,
    String.concat sep (l1 ++ g :: l2)%list = a ++ g ++ b /\
    (forall c, In c (chars a) ->
               In c (chars sep) \/ exists x, In x l1 /\ In c (chars x)) /\
    (forall c, In c (chars b) ->
               In c (chars sep) \/ exists x, In x l2 /\ In c (chars x)).
Proof.
  induction l1 as [|x l1 IH].
  - exists EmptyString. destruct l2 as [|y l2].
    + exists EmptyString. simpl. rewrite append_empty_r.
      repeat split; intros c [].
    + exists (sep ++ String.concat sep (y :: l2)).
      split; [reflexivity|]. split; [intros c []|].
      intros c Hc. rewrite chars_app, in_app_iff in Hc.
      destruct Hc as [Hc|Hc]; [now left|]. now apply concat_chars in Hc.
  - destruct IH as (a & b & E & Ha & Hb).
    exists (x ++ sep ++ a), b. split; [|split; [|exact Hb]].
    + change ((x :: l1) ++ g :: l2)%list with (x :: (l1 ++ g :: l2))%list.
      destruct (l1 ++ g :: l2)%list eqn:El; [now destruct l1|].
      change (String.concat sep (x :: s :: l))
        with (x ++ sep ++ String.concat sep (s :: l)).
      now rewrite E, !append_assoc.
    + intros c Hc. rewrite !chars_app, !in_app_iff in Hc.
      destruct Hc as [Hc|[Hc|Hc]].
      * right. exists x. split; [now left | exact Hc].
      * now left.
      * destruct (Ha c Hc) as [?|(y & Hy & ?)]; [now left|].
        right. exists y. split; [now right | assumption].
Qed.

Lemma fixed_order_around (f : Field) :
  fixed_order = (before f ++ f :: after f)%list /\
  (forall f', In f' (before f) -> f' <> f) /\
  (forall f', In f' (after f) -> f' <> f).
Proof.
  destruct f; (split; [reflexivity|]); split; intros f' H; simpl in H;
    intuition (subst; discriminate).
Qed.

(** A key letter of one field group occurs in no other field group. *)
Lemma key_not_in_other (p : Ts.TextSizingParams) (f f' : Field) (c : ascii) :
  In c (keys f) -> f' <> f -> ~ In c (chars (group p f')).
Proof.
  intros Hk Hf Hc. apply group_alphabet in Hc.
  destruct f, f'; try congruence; simpl in Hk, Hc;
    intuition (subst; discriminate).
Qed.

(** A field group begins with a key letter that occurs nowhere else in
    it. *)
Lemma group_head (p : Ts.TextSizingParams) (f : Field) :
  exists c g', group p f = String c g' /\ In c (keys f) /\
               ~ In c (chars g').
Proof.
  destruct f; unfold group; simpl append; eexists; eexists;
    (split; [reflexivity|]); (split; [now left|]);
    change (String "="%char ?x) with ("=" ++ x);
    rewrite ?chars_app, ?in_app_iff; simpl;
    intros H; repeat destruct H as [H|H]; try discriminate H; try easy;
    apply decimal_numeral in H; discriminate H.
Qed.

(** The parameter block around a group that was pushed: the key letter
    of the group occurs neither before nor after it. *)
Lemma block_around (p : Ts.TextSizingParams) (f : Field) (c : ascii) :
  pushed p f = true -> In c (keys f) ->
  exists a b,
    Ts.textSizing_paramsStr p = a ++ group p f ++ b /\
    ~ In c (chars a) /\ ~ In c (chars b).
Proof.
  intros Hp Hk. destruct (fixed_order_around f) as (E & Hb & Ha).
  rewrite paramsStr_join, parts_pushed, E, filter_app. simpl filter.
  rewrite Hp, map_app. simpl map.
  destruct (concat_around ":" (group p f)
              (map (group p) (filter (pushed p) (before f)))
              (map (group p) (filter (pushed p) (after f))))
    as (a & b & Eq & Ca & Cb).
  exists a, (b ++ ";"). split; [now rewrite Eq, !append_assoc|].
  assert (K : forall l, (forall f', In f' l -> f' <> f) ->
                        forall x, In x (map (group p) (filter (pushed p) l))
                                  -> ~ In c (chars x)).
  { intros l Hl x Hx. apply in_map_iff in Hx as (f' & <- & Hf').
    apply filter_In in Hf' as [Hf' _].
    apply (key_not_in_other p f f' c Hk). now apply Hl. }
  assert (Sep : ~ In c (chars ":") /\ ~ In c (chars ";")).
  { destruct f; simpl in Hk; split; simpl;
      intuition (subst; discriminate). }
  split.
  - intros Hc. destruct (Ca c Hc) as [?|(x & Hx & Hcx)]; [easy|].
    now apply (K _ Hb x Hx).
  - rewrite chars_app, in_app_iff. intros [Hc|Hc]; [|easy].
    destruct (Cb c Hc) as [?|(x & Hx & Hcx)]; [easy|].
    now apply (K _ Ha x Hx).
Qed.

(** A pattern that begins with the key letter of a pushed group occurs
    in the parameter block exactly when it is a prefix of the group and
    what follows it. *)
Lemma key_occurrence (p : Ts.TextSizingParams) (f : Field) (c : ascii)
      (g' : string) :
  pushed p f = true -> group p f = String c g' -> In c (keys f) ->
  ~ In c (chars g') ->
  exists rest, forall pat',
      includes (Ts.textSizing_paramsStr p) (String c pat')
      = String.prefix pat' (g' ++ rest).
Proof.
  intros Hp Hg Hk Hg'.
  destruct (block_around p f c Hp Hk) as (a & b & E & Ha & Hb).
  exists b. intros pat'. rewrite E, Hg, includes_skip by assumption.
  apply includes_head_only. rewrite chars_app, in_app_iff. tauto.
Qed.

Lemma group_key_split (p : Ts.TextSizingParams) (f : Field) (c : ascii) :
  In c (keys f) ->
  exists g1 g2, group p f = g1 ++ String c "=" ++ g2.
Proof.
  destruct f; simpl; intros [<-|H]; try destruct H as [<-|[]];
    try (exists EmptyString; eexists; reflexivity); try easy.
  exists ("n=" ++ decimal (numeratorOf p) ++ ":"),
         (decimal (denominatorOf p)).
  now rewrite !append_assoc.
Qed.

(** A key, that is a key letter and the equals sign, occurs in the
    parameter block exactly when its group was pushed. *)
Lemma key_iff (p : Ts.TextSizingParams) (f : Field) (c : ascii) :
  In c (keys f) ->
  includes (Ts.textSizing_paramsStr p) (String c "=") = true
  <-> pushed p f = true.
Proof.
  intros Hk. split.
  - intros H. destruct (pushed p f) eqn:E; [reflexivity|].
    rewrite (key_absent p f c (String c "=") E Hk) in H by now left.
    discriminate.
  - intros Hp.
    destruct (group_head p f) as (c0 & g' & _ & Hk0 & _).
    destruct (block_around p f c0 Hp Hk0) as (a & b & E & _).
    destruct (group_key_split p f c Hk) as (g1 & g2 & G).
    rewrite E, G.
    replace (a ++ (g1 ++ String c "=" ++ g2) ++ b)
      with ((a ++ g1) ++ String c "=" ++ (g2 ++ b))
      by now rewrite !append_assoc.
    apply includes_mid.
Qed.

(** C3.  For every parameter set in its valid ranges, the parameter block
    of the output is exactly the groups of the parameters that differ from
    their defaults; the key of a parameter ([s=], [w=], [n=] and [d=],
    [v=], [h=]) occurs in the block exactly when the parameter differs
    from its default, and so does its whole group. *)
Theorem field_group_iff_non_default (p : Ts.TextSizingParams)
        (text : string) :
  valid p ->
  let block := Ts.textSizing_paramsStr p in
  Ts.textSizing p text = ESC ++ "]66" ++ block ++ text ++ ESC ++ "\" /\
  block = String.concat ":"
            (map (group p)
                 (filter (contributes p)
                         [Fscale; Fwidth; Ffraction; Fvertical; Fhorizontal]))
          ++ ";" /\
  (includes block "s=" = true <-> 1 < scaleOf p) /\
  (includes block "w=" = true <-> 0 < widthOf p) /\
  (includes block "n=" = true
   <-> 0 < numeratorOf p /\ numeratorOf p < denominatorOf p) /\
  (includes block "d=" = true
   <-> 0 < numeratorOf p /\ numeratorOf p < denominatorOf p) /\
  (includes block "v=" = true <-> verticalOf p <> Ts.Vtop) /\
  (includes block "h=" = true <-> horizontalOf p <> Ts.Hleft) /\
  (includes block ("s=" ++ decimal (scaleOf p)) = true <-> 1 < scaleOf p) /\
  (includes block ("w=" ++ decimal (widthOf p)) = true <-> 0 < widthOf p) /\
  (includes block ("n=" ++ decimal (numeratorOf p)
                   ++ ":d=" ++ decimal (denominatorOf p)) = true
   <-> 0 < numeratorOf p /\ numeratorOf p < denominatorOf p) /\
  (includes block ("v=" ++ decimal (vertical_code (verticalOf p))) = true
   <-> verticalOf p <> Ts.Vtop) /\
  (includes block ("h=" ++ decimal (horizontal_code (horizontalOf p))) = true
   <-> horizontalOf p <> Ts.Hleft).
Proof.
  intros (_ & _ & [Hn _] & _) block. subst block.
  assert (S : pushed p Fscale = true <-> 1 < scaleOf p).
  { simpl. apply Z.ltb_lt. }
  assert (W : pushed p Fwidth = true <-> 0 < widthOf p).
  { simpl. apply Z.ltb_lt. }
  assert (F : pushed p Ffraction = true
              <-> 0 < numeratorOf p /\ numeratorOf p < denominatorOf p).
  { rewrite pushed_contributes by assumption. simpl.
    rewrite andb_true_iff, !Z.ltb_lt. tauto. }
  assert (V : pushed p Fvertical = true <-> verticalOf p <> Ts.Vtop).
  { simpl. destruct (verticalOf p); simpl; split; congruence. }
  assert (H : pushed p Fhorizontal = true <-> horizontalOf p <> Ts.Hleft).
  { simpl. destruct (horizontalOf p); simpl; split; congruence. }
  split; [reflexivity|].
  split; [rewrite paramsStr_join, parts_field_groups by assumption;
          reflexivity|].
  split; [rewrite <- S; apply (key_iff p Fscale); now left|].
  split; [rewrite <- W; apply (key_iff p Fwidth); now left|].
  split; [rewrite <- F; apply (key_iff p Ffraction); now left|].
  split; [rewrite <- F; apply (key_iff p Ffraction); right; now left|].
  split; [rewrite <- V; apply (key_iff p Fvertical); now left|].
  split; [rewrite <- H; apply (key_iff p Fhorizontal); now left|].
  split; [rewrite <- S; apply (group_occurs_iff p Fscale)|].
  split; [rewrite <- W; apply (group_occurs_iff p Fwidth)|].
  split; [rewrite <- F; apply (group_occurs_iff p Ffraction)|].
  split; [rewrite <- V; apply (group_occurs_iff p Fvertical)|].
  rewrite <- H; apply (group_occurs_iff p Fhorizontal).
Qed.

Lemma field_group_iff_non_default_witness :
  let p := Ts.mkParams (Some 2) (Some 0) (Some 3) (Some 2)
                       (Some Ts.Vcenter) None in
  let block := Ts.textSizing_paramsStr p in
  Ts.textSizing p "x" = ESC ++ "]66" ++ block ++ "x" ++ ESC ++ "\" /\
  block = String.concat ":"
            (map (group p)
                 (filter (contributes p)
                         [Fscale; Fwidth; Ffraction; Fvertical; Fhorizontal]))
          ++ ";" /\
  (includes block "s=" = true <-> 1 < scaleOf p) /\
  (includes block "w=" = true <-> 0 < widthOf p) /\
  (includes block "n=" = true
   <-> 0 < numeratorOf p /\ numeratorOf p < denominatorOf p) /\
  (includes block "d=" = true
   <-> 0 < numeratorOf p /\ numeratorOf p < denominatorOf p) /\
  (includes block "v=" = true <-> verticalOf p <> Ts.Vtop) /\
  (includes block "h=" = true <-> horizontalOf p <> Ts.Hleft) /\
  (includes block ("s=" ++ decimal (scaleOf p)) = true <-> 1 < scaleOf p) /\
  (includes block ("w=" ++ decimal (widthOf p)) = true <-> 0 < widthOf p) /\
  (includes block ("n=" ++ decimal (numeratorOf p)
                   ++ ":d=" ++ decimal (denominatorOf p)) = true
   <-> 0 < numeratorOf p /\ numeratorOf p < denominatorOf p) /\
  (includes block ("v=" ++ decimal (vertical_code (verticalOf p))) = true
   <-> verticalOf p <> Ts.Vtop) /\
  (includes block ("h=" ++ decimal (horizontal_code (horizontalOf p))) = true
   <-> horizontalOf p <> Ts.Hleft).
Proof.
  apply (field_group_iff_non_default
           (Ts.mkParams (Some 2) (Some 0) (Some 3) (Some 2)
                        (Some Ts.Vcenter) None) "x").
  unfold valid; repeat split; vm_compute; discriminate.
Defined.

(** What the array [parts] holds for the two alignments. *)
Lemma alignment_parts (p : Ts.TextSizingParams) :
  let parts := Ts.textSizing_parts p in
  (In "v=1" parts <-> verticalOf p = Ts.Vbottom) /\
  (In "v=2" parts <-> verticalOf p = Ts.Vcenter) /\
  (forall g, In g parts -> String.prefix "v=" g = true ->
             g = "v=1" \/ g = "v=2") /\
  (In "h=1" parts <-> horizontalOf p = Ts.Hright) /\
  (In "h=2" parts <-> horizontalOf p = Ts.Hcenter) /\
  (forall g, In g parts -> String.prefix "h=" g = true ->
             g = "h=1" \/ g = "h=2").
Proof.
  intros parts. subst parts.
  assert (V : forall g, (exists f, pushed p f = true /\ g = group p f) ->
                        String.prefix "v=" g = true ->
                        g = "v=" ++ decimal (vertical_code (verticalOf p))
                        /\ verticalOf p <> Ts.Vtop).
  { intros g (f & Hf & ->) Hp. destruct f; simpl in Hp; try discriminate.
    split; [reflexivity|]. simpl in Hf. intros E. rewrite E in Hf.
    discriminate. }
  assert (H : forall g, (exists f, pushed p f = true /\ g = group p f) ->
                        String.prefix "h=" g = true ->
                        g = "h=" ++ decimal (horizontal_code (horizontalOf p))
                        /\ horizontalOf p <> Ts.Hleft).
  { intros g (f & Hf & ->) Hp. destruct f; simpl in Hp; try discriminate.
    split; [reflexivity|]. simpl in Hf. intros E. rewrite E in Hf.
    discriminate. }
  repeat split.
  - intros I. apply parts_member in I. destruct (V _ I eq_refl) as [E _].
    destruct (verticalOf p); vm_compute in E; congruence.
  - intros E. apply parts_member. exists Fvertical. simpl. now rewrite E.
  - intros I. apply parts_member in I. destruct (V _ I eq_refl) as [E _].
    destruct (verticalOf p); vm_compute in E; congruence.
  - intros E. apply parts_member. exists Fvertical. simpl. now rewrite E.
  - intros g I Hp. apply parts_member in I. destruct (V _ I Hp) as [-> N].
    destruct (verticalOf p); [congruence | now left | now right].
  - intros I. apply parts_member in I. destruct (H _ I eq_refl) as [E _].
    destruct (horizontalOf p); vm_compute in E; congruence.
  - intros E. apply parts_member. exists Fhorizontal. simpl. now rewrite E.
  - intros I. apply parts_member in I. destruct (H _ I eq_refl) as [E _].
    destruct (horizontalOf p); vm_compute in E; congruence.
  - intros E. apply parts_member. exists Fhorizontal. simpl. now rewrite E.
  - intros g I Hp. apply parts_member in I. destruct (H _ I Hp) as [-> N].
    destruct (horizontalOf p); [congruence | now left | now right].
Qed.

(** A pattern that begins with [v] occurs in the parameter block for no
    top alignment, and otherwise exactly when what follows the [v] is a
    prefix of [=1] or [=2] and the rest of the block. *)
Lemma vertical_occurrence (p : Ts.TextSizingParams) :
  match verticalOf p with
  | Ts.Vtop =>
      forall pat', includes (Ts.textSizing_paramsStr p) (String "v" pat')
                   = false
  | Ts.Vbottom =>
      exists rest, forall pat',
          includes (Ts.textSizing_paramsStr p) (String "v" pat')
          = String.prefix pat' ("=1" ++ rest)
  | Ts.Vcenter =>
      exists rest, forall pat',
          includes (Ts.textSizing_paramsStr p) (String "v" pat')
          = String.prefix pat' ("=2" ++ rest)
  end.
Proof.
  destruct (verticalOf p) eqn:E.
  - intros pat'. apply (key_absent p Fvertical "v"); simpl; auto.
    now rewrite E.
  - apply (key_occurrence p Fvertical "v" "=1").
    + simpl. now rewrite E.
    + unfold group. now rewrite E.
    + now left.
    + simpl. intuition discriminate.
  - apply (key_occurrence p Fvertical "v" "=2").
    + simpl. now rewrite E.
    + unfold group. now rewrite E.
    + now left.
    + simpl. intuition discriminate.
Qed.

Lemma horizontal_occurrence (p : Ts.TextSizingParams) :
  match horizontalOf p with
  | Ts.Hleft =>
      forall pat', includes (Ts.textSizing_paramsStr p) (String "h" pat')
                   = false
  | Ts.Hright =>
      exists rest, forall pat',
          includes (Ts.textSizing_paramsStr p) (String "h" pat')
          = String.prefix pat' ("=1" ++ rest)
  | Ts.Hcenter =>
      exists rest, forall pat',
          includes (Ts.textSizing_paramsStr p) (String "h" pat')
          = String.prefix pat' ("=2" ++ rest)
  end.
Proof.
  destruct (horizontalOf p) eqn:E.
  - intros pat'. apply (key_absent p Fhorizontal "h"); simpl; auto.
    now rewrite E.
  - apply (key_occurrence p Fhorizontal "h" "=1").
    + simpl. now rewrite E.
    + unfold group. now rewrite E.
    + now left.
    + simpl. intuition discriminate.
  - apply (key_occurrence p Fhorizontal "h" "=2").
    + simpl. now rewrite E.
    + unfold group. now rewrite E.
    + now left.
    + simpl. intuition discriminate.
Qed.

(** C6.  For every parameter set and text, the output of [textSizing] is
    ESC ] 66, the parameter block, the text and ESC \, the block being the
    colon-joined array of field groups and a semicolon; [v=1] occurs in
    the block exactly for bottom, [v=2] exactly for center and [v=] not at
    all for top; [h=1] occurs exactly for right, [h=2] exactly for center
    and [h=] not at all for left; and the array holds no other group
    keyed [v] or [h]. *)
Theorem alignment_wire_codes (p : Ts.TextSizingParams) (text : string) :
  let parts := Ts.textSizing_parts p in
  let block := Ts.textSizing_paramsStr p in
  Ts.textSizing p text = ESC ++ "]66" ++ block ++ text ++ ESC ++ "\" /\
  block = String.concat ":" parts ++ ";" /\
  (includes block "v=1" = true <-> verticalOf p = Ts.Vbottom) /\
  (includes block "v=2" = true <-> verticalOf p = Ts.Vcenter) /\
  (includes block "v=" = true <-> verticalOf p <> Ts.Vtop) /\
  (includes block "h=1" = true <-> horizontalOf p = Ts.Hright) /\
  (includes block "h=2" = true <-> horizontalOf p = Ts.Hcenter) /\
  (includes block "h=" = true <-> horizontalOf p <> Ts.Hleft) /\
  (In "v=1" parts <-> verticalOf p = Ts.Vbottom) /\
  (In "v=2" parts <-> verticalOf p = Ts.Vcenter) /\
  (forall g, In g parts -> String.prefix "v=" g = true ->
             g = "v=1" \/ g = "v=2") /\
  (In "h=1" parts <-> horizontalOf p = Ts.Hright) /\
  (In "h=2" parts <-> horizontalOf p = Ts.Hcenter) /\
  (forall g, In g parts -> String.prefix "h=" g = true ->
             g = "h=1" \/ g = "h=2").
Proof.
  intros parts block. subst parts block.
  split; [reflexivity|]. split; [apply paramsStr_join|].
  pose proof (vertical_occurrence p) as V.
  pose proof (horizontal_occurrence p) as H.
  assert (A := alignment_parts p).
  split; [|split; [|split; [|split; [|split; [|split; [|exact A]]]]]].
  - destruct (verticalOf p); [|destruct V as [r V]..];
      rewrite V; simpl; try destruct r; simpl; split; congruence.
  - destruct (verticalOf p); [|destruct V as [r V]..];
      rewrite V; simpl; try destruct r; simpl; split; congruence.
  - destruct (verticalOf p); [|destruct V as [r V]..];
      rewrite V; simpl; try destruct r; simpl; split; congruence.
  - destruct (horizontalOf p); [|destruct H as [r H]..];
      rewrite H; simpl; try destruct r; simpl; split; congruence.
  - destruct (horizontalOf p); [|destruct H as [r H]..];
      rewrite H; simpl; try destruct r; simpl; split; congruence.
  - destruct (horizontalOf p); [|destruct H as [r H]..];
      rewrite H; simpl; try destruct r; simpl; split; congruence.
Qed.







End BlockContents.
